(** * AI_Handler: session service over automated browser sessions

    A shallow embedding of [main.py]: the text normalizer
    ([extract_text_from_html], built on Python's [re.sub]), the global
    session dictionary with its handlers ([create_session], [logout],
    [refresh], [send_chat]), the background reaper
    ([cleanup_expired_sessions]) and the shutdown part of [lifespan]. *)

From Stdlib Require Import List NArith ZArith Bool Lia Ascii String.
From Stdlib Require Import Floats.
From stdpp Require Import gmap strings list fin_maps.

(** ** Python strings

    A Python [str] is a sequence of Unicode code points; a code point is a
    natural number. *)

Module PyStr.

Abbreviation char := N (only parsing).
Abbreviation str := (list N) (only parsing).

(** ASCII literals of the source, as code points. *)
Definition py (s : string) : str :=
  List.map N_of_ascii (list_ascii_of_string s).

Definition LF : char := 10%N.     (* '\n' *)
Definition SP : char := 32%N.     (* ' '  *)
Definition LT : char := 60%N.     (* '<'  *)
Definition GT : char := 62%N.     (* '>'  *)

(** [str.isspace] on one code point (CPython's [_PyUnicode_IsWhitespace]);
    it is also what [\s] matches in a [str] pattern and what [str.strip()]
    removes. *)
Definition isspace (c : char) : bool :=
  ((9 <=? c) && (c <=? 13) || (28 <=? c) && (c <=? 32)
   || (c =? 133) || (c =? 160) || (c =? 5760)
   || (8192 <=? c) && (c <=? 8202)
   || (c =? 8232) || (c =? 8233) || (c =? 8239) || (c =? 8287)
   || (c =? 12288))%N.

Fixpoint lstrip (s : str) : str :=
  match s with
  | c :: s' => if isspace c then lstrip s' else s
  | [] => []
  end.

Definition rstrip (s : str) : str := rev (lstrip (rev s)).

(** [s.strip()] *)
Definition strip (s : str) : str := rstrip (lstrip s).

End PyStr.

(** ** The fragment of Python's [re] that [main.py] uses

    Every pattern of the source is an alternation of sequences of: one
    character out of a set, a repetition of such a set ([*], [+], [{3,}],
    greedy, or [*?], lazy), and the anchors [^] and [$] under
    [re.MULTILINE]. The matcher is the backtracking one of [sre]: a greedy
    repetition tries one more character before it tries what follows, a lazy
    one the other way round, alternatives are tried left to right. *)

Module Re.
Import PyStr.

Inductive cset : Type :=
| CLit (c : char)       (* the character c *)
| CLitI (c : char)      (* the character c under re.IGNORECASE *)
| CAny                  (* . under re.DOTALL *)
| CNot (c : char)       (* [^c] *)
| CSpace.               (* \s *)

(** A literal under [re.IGNORECASE] in a [str] pattern. For the lower-case
    ASCII letter [c] of a pattern, [sre] accepts [ch] when its lower-case
    mapping is [c] or one of the "ignore-case fixes" of [c]: besides the
    two ASCII letters these are U+0130 and U+0131 for [i], U+212A for [k]
    and U+017F for [s]. A character without case matches itself. *)
Definition ignorecase_eq (c ch : char) : bool :=
  ((ch =? c)
   || ((97 <=? c) && (c <=? 122) && (ch =? c - 32))
   || ((c =? 105) && ((ch =? 304) || (ch =? 305)))
   || ((c =? 107) && (ch =? 8490))
   || ((c =? 115) && (ch =? 383)))%N.

Definition mem (k : cset) (ch : char) : bool :=
  match k with
  | CLit c => (ch =? c)%N
  | CLitI c => ignorecase_eq c ch
  | CAny => true
  | CNot c => negb (ch =? c)%N
  | CSpace => isspace ch
  end.

Inductive node : Type :=
| One (k : cset)                              (* one character of k *)
| Rep (k : cset) (min : nat) (greedy : bool)  (* k{min,} or k{min,}? *)
| Bol                                         (* ^ under re.MULTILINE *)
| Eol.                                        (* $ under re.MULTILINE *)

Definition pattern := list (list node).       (* alternatives, in order *)

Definition at_bol (prev : option char) : bool :=
  match prev with
  | None => true
  | Some c => (c =? LF)%N
  end.

Definition at_eol (s : str) : bool :=
  match s with
  | [] => true
  | c :: _ => (c =? LF)%N
  end.

(** The continuation [k] is the matcher of the rest of the sequence; a
    matcher gets the character before the current position and the rest of
    the subject, and returns how many characters the match takes. *)
Definition matcher := option char → str → option nat.

Fixpoint rep (cs : cset) (greedy : bool) (k : matcher)
    (min : nat) (prev : option char) (s : str) {struct s} : option nat :=
  let stop := match min with O => k prev s | S _ => None end in
  let more :=
    match s with
    | c :: s' =>
        if mem cs c then S <$> rep cs greedy k (pred min) (Some c) s'
        else None
    | [] => None
    end in
  if greedy
  then match more with Some n => Some n | None => stop end
  else match stop with Some n => Some n | None => more end.

Fixpoint match_seq (ns : list node) : matcher :=
  match ns with
  | [] => fun _ _ => Some O
  | One cs :: ns' => fun _ s =>
      match s with
      | c :: s' => if mem cs c then S <$> match_seq ns' (Some c) s' else None
      | [] => None
      end
  | Rep cs min greedy :: ns' => rep cs greedy (match_seq ns') min
  | Bol :: ns' => fun prev s =>
      if at_bol prev then match_seq ns' prev s else None
  | Eol :: ns' => fun prev s =>
      if at_eol s then match_seq ns' prev s else None
  end.

Fixpoint match_alt (p : pattern) (prev : option char) (s : str)
    : option nat :=
  match p with
  | [] => None
  | ns :: p' =>
      match match_seq ns prev s with
      | Some n => Some n
      | None => match_alt p' prev s
      end
  end.

(** [re.sub(p, repl, s)]: scan from the left; where the pattern matches,
    emit [repl] and go on after the match, else copy one character.
    [skip] counts the characters of the current match still to pass. No
    pattern of the source matches the empty string ([match_seq_consumes]
    below), so the empty-match rules of [re.sub] never apply; an empty
    match is treated like no match. *)
Fixpoint sub_from (p : pattern) (repl : str) (prev : option char)
    (skip : nat) (s : str) : str :=
  match s with
  | [] => []
  | c :: s' =>
      match skip with
      | S k => sub_from p repl (Some c) k s'
      | O =>
          match match_alt p prev s with
          | Some (S n) => repl ++ sub_from p repl (Some c) n s'
          | _ => c :: sub_from p repl (Some c) O s'
          end
      end
  end.

Definition sub (p : pattern) (repl : str) (s : str) : str :=
  sub_from p repl None O s.

(** Pattern syntax helpers. *)
Definition lits (s : string) : list node := List.map (fun c => One (CLit c)) (py s).
Definition litsI (s : string) : list node := List.map (fun c => One (CLitI c)) (py s).

End Re.

(** ** The text normalizer *)

Module Normalizer.
Import PyStr Re.

(** [r'<script.*?</script>'] with [re.DOTALL] *)
Definition script_re : pattern :=
  [lits "<script" ++ [Rep CAny 0 false] ++ lits "</script>"].
(** [r'<style.*?</style>'] with [re.DOTALL] *)
Definition style_re : pattern :=
  [lits "<style" ++ [Rep CAny 0 false] ++ lits "</style>"].
(** [r'<!--.*?-->'] with [re.DOTALL] *)
Definition comment_re : pattern :=
  [lits "<!--" ++ [Rep CAny 0 false] ++ lits "-->"].
(** [r'<\s*' + tag + r'[^>]*>'] with [re.IGNORECASE] *)
Definition open_re (tag : string) : pattern :=
  [[One (CLitI LT); Rep CSpace 0 true] ++ litsI tag
     ++ [Rep (CNot GT) 0 true; One (CLitI GT)]].
(** [r'<\s*/' + tag + r'\s*>'] with [re.IGNORECASE] *)
Definition close_re (tag : string) : pattern :=
  [[One (CLitI LT); Rep CSpace 0 true; One (CLitI 47%N)] ++ litsI tag
     ++ [Rep CSpace 0 true; One (CLitI GT)]].
(** [r'<[^>]*>'] *)
Definition tag_re : pattern :=
  [[One (CLit LT); Rep (CNot GT) 0 true; One (CLit GT)]].
(** [r' +'] *)
Definition spaces_re : pattern := [[Rep (CLit SP) 1 true]].
(** [r'\n{3,}'] *)
Definition newlines_re : pattern := [[Rep (CLit LF) 3 true]].
(** [r'^ +| +$'] with [re.MULTILINE] *)
Definition edges_re : pattern :=
  [[Bol; Rep (CLit SP) 1 true]; [Rep (CLit SP) 1 true; Eol]].

Definition block_tags : list string :=
  ["p"; "div"; "h1"; "h2"; "h3"; "h4"; "h5"; "h6"; "li"; "br"; "tr"]%string.

(** The body of the [for tag in [...]] loop. *)
Definition block_step (html : str) (tag : string) : str :=
  sub (close_re tag) [LF] (sub (open_re tag) [LF] html).

Definition strip_tags (html : str) : str :=
  let html := sub script_re [] html in
  let html := sub style_re [] html in
  let html := sub comment_re [] html in
  let html := fold_left block_step block_tags html in
  sub tag_re [SP] html.

Definition clean_whitespace (html : str) : str :=
  let text := sub spaces_re [SP] html in
  let text := sub newlines_re [LF; LF] text in
  let text := sub edges_re [] text in
  strip text.

Definition extract_text_from_html (html_content : str) : str :=
  clean_whitespace (strip_tags html_content).

End Normalizer.

(** ** Values and outcomes shared by the handlers *)

#[local] Set Warnings "-register-all".

Module Py.
Import PyStr.

(** A decoded JSON value ([await request.json()]). An object keeps its
    members in order; a later duplicate key wins, as in Python's decoder. *)
Inductive json : Type :=
| JNull
| JBool (b : bool)
| JInt (z : Z)
| JFloat (f : float)
| JStr (s : str)
| JList (l : list json)
| JObj (members : list (str * json)).

(** An exception of class [Exception] other than [HTTPException]: its class
    name and its [str()]. *)
Record pyerr := PyErr { err_class : string; err_str : str }.

Inductive exc : Type :=
| HTTPException (status_code : Z) (detail : str)
| Unhandled (e : pyerr).

Inductive result (A : Type) : Type :=
| Return (a : A)
| Raise (e : exc).
Arguments Return {A} a.
Arguments Raise {A} e.

(** Truth value of an object, as [if files:] takes it. *)
Definition truthy (v : json) : bool :=
  match v with
  | JNull => false
  | JBool b => b
  | JInt z => negb (z =? 0)%Z
  | JFloat f => negb (f =? 0)%float
  | JStr s => match s with [] => false | _ => true end
  | JList l => match l with [] => false | _ => true end
  | JObj m => match m with [] => false | _ => true end
  end.

Fixpoint assoc_last (k : str) (m : list (str * json)) : option json :=
  match m with
  | [] => None
  | (k', v) :: m' =>
      match assoc_last k m' with
      | Some w => Some w
      | None => if decide (k = k') then Some v else None
      end
  end.

(** [data.get(key)]: only a dict has [get]. *)
Definition dict_get (data : json) (key : string) : result json :=
  match data with
  | JObj m => Return (default JNull (assoc_last (py key) m))
  | _ => Raise (Unhandled (PyErr "AttributeError" (py "object has no attribute 'get'")))
  end.

(** [l[i]] on a list, negative indices counting from the end. *)
Definition list_getitem {A} (l : list A) (i : Z) : result A :=
  let n := Z.of_nat (length l) in
  let j := if (i <? 0)%Z then (i + n)%Z else i in
  if ((0 <=? j) && (j <? n))%Z
  then match l !! Z.to_nat j with
       | Some x => Return x
       | None => Raise (Unhandled (PyErr "IndexError" (py "list index out of range")))
       end
  else Raise (Unhandled (PyErr "IndexError" (py "list index out of range"))).

End Py.

(** ** The session dictionary, the reaper and shutdown *)

Module Store.
Import PyStr Py.

(** Identity of a [Browser] or [Tab] object. *)
Definition handle := nat.

(** One value of [sessions]: [{'browser': .., 'page': .., 'last': ..}].
    [last] is a reading of [time.time()], a binary64 float. The inner dict
    is reachable through [sessions] only (and through the reaper's snapshot,
    within one cycle), so an update in place is an update of the entry. *)
Record info := Info { browser : handle; page : handle; last : float }.

(** The process state: the global [sessions], and what the outside world
    has seen of it. [stopped] lists the [Browser.stop()] calls made so far
    (latest first), [uploaded] the [send_file] calls; [launched] counts the
    browsers [uc.start()] has returned, [pending] holds those a running
    [create_session] has not registered yet; [running] is false once the
    shutdown part of [lifespan] has run. *)
Record state := State {
  sessions : gmap str info;
  stopped : list handle;
  uploaded : list (handle * json);
  launched : nat;
  pending : gset handle;
  running : bool
}.

Definition init : state := State ∅ [] [] 0 ∅ true.

Definition SESSION_TIMEOUT : float := (10 * 60)%float.
Definition CLEANUP_INTERVAL : float := 30%float.

Definition with_sessions (f : gmap str info → gmap str info)
    (st : state) : state :=
  State (f (sessions st)) (stopped st) (uploaded st) (launched st)
        (pending st) (running st).

(** [b.stop()] *)
Definition stop (b : handle) (st : state) : state :=
  State (sessions st) (b :: stopped st) (uploaded st) (launched st)
        (pending st) (running st).

(** [sessions.pop(sid, None)] *)
Definition pop (sid : str) : state → state := with_sessions (delete sid).

(** [sessions[sid] = i] *)
Definition store (sid : str) (i : info) : state → state :=
  with_sessions (insert sid i).

(** [await uc.start()] returning a new browser. *)
Definition launch (st : state) : handle * state :=
  (launched st,
   State (sessions st) (stopped st) (uploaded st) (S (launched st))
         ({[launched st]} ∪ pending st) (running st)).

(** The last segment of [create_session]: the browser leaves the task's
    local variable for the dictionary. *)
Definition register (b p : handle) (sid : str) (now : float)
    (st : state) : state :=
  State (<[sid := Info b p now]> (sessions st)) (stopped st) (uploaded st)
        (launched st) (pending st ∖ {[b]}) (running st).

(** [await file_input.send_file(path)] on page [p]. *)
Definition send_file (p : handle) (path : json) (st : state) : state :=
  State (sessions st) (stopped st) ((p, path) :: uploaded st) (launched st)
        (pending st) (running st).

(** [now - info['last'] > SESSION_TIMEOUT] *)
Definition expired (now : float) (i : info) : bool :=
  (SESSION_TIMEOUT <? now - last i)%float.

(** One turn of the [for sid, info in list(sessions.items())] loop. *)
Definition reap_one (now : float) (st : state) (e : str * info) : state :=
  if expired now e.2 then pop e.1 (stop (browser e.2) st) else st.

(** One cycle of [cleanup_expired_sessions], from [time.time()] to the
    sleep: no [await] in between, so nothing interleaves. The snapshot
    [list(sessions.items())] is taken in insertion order, [map_to_list] in
    key order; the entries are the same. *)
Definition cleanup_cycle (now : float) (st : state) : state :=
  foldl (reap_one now) st (map_to_list (sessions st)).

(** The part of [lifespan] after [yield]. The entries stay in [sessions]. *)
Definition shutdown (st : state) : state :=
  let st' := foldl (λ s e, stop (browser e.2) s) st
                   (map_to_list (sessions st)) in
  State (sessions st') (stopped st') (uploaded st') (launched st')
        (pending st') false.

End Store.

(** ** The request handlers

    A handler is a state transformer that may raise; the two polling loops
    of [send_chat] have no bound in the source, so a run is given fuel and
    [None] means the fuel ran out inside a loop. What the browser, the
    clock, the file system and the token generator answer is an input of
    the handler (its environment). *)

Module Handlers.
Import PyStr Py Store.

Definition M (A : Type) : Type := state → option (result A * state).

Definition ret {A} (a : A) : M A := λ st, Some (Return a, st).
Definition raise {A} (e : exc) : M A := λ st, Some (Raise e, st).
Definition bind {A B} (m : M A) (k : A → M B) : M B := λ st,
  match m st with
  | Some (Return a, st') => k a st'
  | Some (Raise e, st') => Some (Raise e, st')
  | None => None
  end.
Definition lift {A} (r : result A) : M A := λ st, Some (r, st).
Definition update (f : state → state) : M unit := λ st, Some (Return tt, f st).
Definition read {A} (f : state → A) : M A := λ st, Some (Return (f st), st).

Notation "'let*' x ':=' m 'in' k" := (bind m (λ x, k))
  (at level 10, x name, m at level 100, k at level 200).
Notation "m >> k" := (bind m (λ _, k))
  (at level 90, right associativity).

(** An awaited call that returns nothing of interest: [None] when it
    returns, [Some e] when it raises [e]. *)
Definition await_ (o : option pyerr) : M unit :=
  match o with
  | None => ret tt
  | Some e => raise (Unhandled e)
  end.

(** [try: body except Exception as e: handler(e)]. [HTTPException] is an
    [Exception] too; no body below raises one. *)
Definition try_except {A} (body : M A) (handler : exc → M A) : M A := λ st,
  match body st with
  | Some (Raise e, st') => handler e st'
  | r => r
  end.

Definition exc_str (e : exc) : str :=
  match e with
  | HTTPException code detail => detail
  | Unhandled e => err_str e
  end.

Definition not_found {A} : M A := raise (HTTPException 404 (py "Session not found")).

(** *** [create_session] *)

Record create_env := CreateEnv {
  c_json : result json;               (* await request.json() *)
  c_start : option pyerr;             (* await uc.start() *)
  c_get : result handle;              (* await browser.get(sign_in) *)
  c_body : option pyerr;              (* await page.select('body', ...) *)
  c_email : option pyerr;             (* await page.select(email input) *)
  c_email_keys : json → option pyerr; (* await email_input.send_keys(username) *)
  c_pwd : option pyerr;               (* await page.select(password input) *)
  c_pwd_keys : json → option pyerr;   (* await pwd_input.send_keys(password) *)
  c_button : option pyerr;            (* await page.find_element_by_text(..) *)
  c_click : option pyerr;             (* await login_btn.mouse_click() *)
  c_token : str;                      (* secrets.token_urlsafe(16) *)
  c_now : float                       (* time.time() *)
}.

Definition uc_start (o : option pyerr) : M handle :=
  match o with
  | None => λ st, let (b, st') := launch st in Some (Return b, st')
  | Some e => raise (Unhandled e)
  end.

Definition create_session (env : create_env) : M json :=
  let* data := lift (c_json env) in
  let* username := lift (dict_get data "username") in
  let* password := lift (dict_get data "password") in
  let* browser := uc_start (c_start env) in
  let* page := lift (c_get env) in
  await_ (c_body env) >>
  await_ (c_email env) >>
  await_ (c_email_keys env username) >>
  await_ (c_pwd env) >>
  await_ (c_pwd_keys env password) >>
  await_ (c_button env) >>
  await_ (c_click env) >>
  let sid := c_token env in
  update (register browser page sid (c_now env)) >>
  ret (JObj [(py "session_id", JStr sid)]).

(** *** [logout] and [refresh] *)

Definition logout (sid : str) : M json :=
  let* s := read sessions in
  match s !! sid with
  | None => not_found
  | Some i =>
      update (stop (browser i)) >>
      update (pop sid) >>
      ret (JObj [(py "status", JStr (py "logged_out"))])
  end.

(** [sessions[sid]['last'] = now]; a [KeyError] when [sid] is not a key
    (the error carries the key; Python shows it quoted). *)
Definition touch (sid : str) (now : float) : M info :=
  let* s := read sessions in
  match s !! sid with
  | None => raise (Unhandled (PyErr "KeyError" sid))
  | Some i =>
      let i' := Info (browser i) (page i) now in
      update (store sid i') >> ret i'
  end.

Definition refresh (sid : str) (now : float) : M json :=
  let* s := read sessions in
  match s !! sid with
  | None => not_found
  | Some _ =>
      touch sid now >>
      ret (JObj [(py "status", JStr (py "refreshed"))])
  end.

(** *** [send_chat] *)

Record chat_env := ChatEnv {
  q_json : result json;                (* await request.json() *)
  q_now : float;                       (* time.time() *)
  q_file_input : option pyerr;         (* await page.select("input[type='file']") *)
  q_exists : json → result bool;       (* os.path.exists(file_path) *)
  q_send_file : json → option pyerr;   (* await file_input.send_file(file_path) *)
  q_input : option pyerr;              (* await page.select('#chat-input') *)
  q_input_keys : json → option pyerr;  (* await input_area.send_keys(prompt) *)
  q_send : nat → bool;                 (* n-th turn of the send loop: select and click went through *)
  q_done : nat → bool;                 (* n-th turn of the wait loop: the disabled button was found *)
  q_select_all : result (list str)     (* await page.select_all(..), each element by its str() *)
}.

(** The [for file_path in file_list] loop. *)
Fixpoint upload_each (env : chat_env) (p : handle) (file_list : list json)
    : M unit :=
  match file_list with
  | [] => ret tt
  | file_path :: rest =>
      let* there := lift (q_exists env file_path) in
      (if there : bool
       then await_ (q_send_file env file_path) >> update (send_file p file_path)
       else ret tt (* print("File not found, skipping: ...") *)) >>
      upload_each env p rest
  end.

(** The body of the [try] of the upload block. *)
Definition upload_body (env : chat_env) (p : handle) (files : json) : M unit :=
  await_ (q_file_input env) >>
  let file_list := match files with JList l => l | _ => [files] end in
  upload_each env p file_list.

(** [if files: try: ... except Exception as e: raise HTTPException(500, ...)] *)
Definition upload_files (env : chat_env) (p : handle) (files : json) : M unit :=
  if truthy files
  then try_except (upload_body env p files)
         (λ e, raise (HTTPException 500 (py "File upload failed: " ++ exc_str e)))
  else ret tt.

(** [while True: try: <attempt>; break except: pass], the attempts numbered
    from [n]. *)
Fixpoint retry (attempt : nat → bool) (fuel n : nat) : M unit :=
  match fuel with
  | O => λ _, None
  | S fuel' => if attempt n then ret tt else retry attempt fuel' (S n)
  end.

(** Lines 183 to 192: take the last response element and normalize it. *)
Definition extract_response (env : chat_env) (files : json) : M json :=
  let* response_elements := lift (q_select_all env) in
  let* last_response := lift (list_getitem response_elements (-1)) in
  let response_text := Normalizer.extract_text_from_html last_response in
  ret (JObj [(py "response", JStr response_text);
             (py "status", JStr (py "success"));
             (py "files_uploaded", if truthy files then files else JNull)]).

(** Lines 132 to 181: everything of a turn before the extraction. *)
Definition converse (fuel : nat) (env : chat_env) (sid : str) : M json :=
  let* data := lift (q_json env) in
  let* prompt := lift (dict_get data "prompt") in
  let* files := lift (dict_get data "files") in
  let* i := touch sid (q_now env) in
  upload_files env (page i) files >>
  await_ (q_input env) >>
  await_ (q_input_keys env prompt) >>
  retry (q_send env) fuel 0 >>
  retry (q_done env) fuel 0 >>
  ret files.

Definition send_chat_body (fuel : nat) (env : chat_env) (sid : str)
    : M json :=
  let* files := converse fuel env sid in
  extract_response env files.

Definition send_chat (fuel : nat) (env : chat_env) (sid : str) : M json :=
  let* s := read sessions in
  match s !! sid with
  | None => not_found
  | Some _ => send_chat_body fuel env sid
  end.

End Handlers.

(** ** Interleavings

    The server runs its handlers and the reaper as [asyncio] tasks: a task
    runs alone from one [await] to the next. An event is one such segment
    that touches the process state. Of [create_session] these are the return
    of [uc.start()] and the final registration (a task that raises in
    between never registers its browser); [logout], [refresh] and a reaper
    cycle are one segment each; of [send_chat], the touch after
    [await request.json()] and each [send_file]. The shutdown part of
    [lifespan] runs once the server has stopped serving, so nothing follows
    it. *)

Module System.
Import PyStr Py Store Handlers.

Inductive event : Type :=
| EvLaunch                                               (* create_session *)
| EvRegister (b p : handle) (sid : str) (now : float)    (* create_session *)
| EvLogout (sid : str)
| EvRefresh (sid : str) (now : float)
| EvChatTouch (sid : str) (now : float)                  (* send_chat *)
| EvSendFile (p : handle) (path : json)                  (* send_chat *)
| EvReap (now : float)
| EvShutdown.

(** The state a handler segment leaves behind. *)
Definition after {A} (m : M A) (st : state) : state :=
  match m st with
  | Some (_, st') => st'
  | None => st
  end.

Definition exec (ev : event) (st : state) : option state :=
  if running st then
    match ev with
    | EvLaunch => Some (launch st).2
    | EvRegister b p sid now =>
        if decide (b ∈ pending st) then Some (register b p sid now st)
        else None
    | EvLogout sid => Some (after (logout sid) st)
    | EvRefresh sid now => Some (after (refresh sid now) st)
    | EvChatTouch sid now => Some (after (touch sid now) st)
    | EvSendFile p path => Some (send_file p path st)
    | EvReap now => Some (cleanup_cycle now st)
    | EvShutdown => Some (shutdown st)
    end
  else None.

Fixpoint run (evs : list event) (st : state) : option state :=
  match evs with
  | [] => Some st
  | ev :: evs' =>
      match exec ev st with
      | Some st' => run evs' st'
      | None => None
      end
  end.

Definition reachable (st : state) : Prop := ∃ evs, run evs init = Some st.


End System.

(** ** Notions used to state facts about the matcher *)

Module ReNotions.
Import PyStr Re.

Definition node_within (P : char → bool) (n : node) : Prop :=
  match n with
  | One cs | Rep cs _ _ => ∀ c, mem cs c = true → P c = true
  | Bol | Eol => True
  end.

(** What a matcher may answer: a length within the subject, over
    characters of [P] only. *)
Definition within (P : char → bool) (k : matcher) : Prop :=
  ∀ prev s n, k prev s = Some n →
    n ≤ length s ∧ forallb P (take n s) = true.

(** Patterns that cannot match the empty string. *)
Definition consuming (ns : list node) : bool :=
  existsb (λ n, match n with
                | One _ | Rep _ (S _) _ => true
                | _ => false
                end) ns.

(** Patterns without [^] and [$] do not look at the character before the
    match. *)
Definition anchor_free (ns : list node) : bool :=
  forallb (λ n, match n with
                | Bol | Eol => false
                | _ => true
                end) ns.

(** [s.startswith(w)] *)
Fixpoint starts_with (w s : str) : bool :=
  match w, s with
  | [], _ => true
  | c :: w', d :: s' => (d =? c)%N && starts_with w' s'
  | _ :: _, [] => false
  end.

(** [s.find(w)], with [None] for -1. *)
Fixpoint find (w s : str) : option nat :=
  if starts_with w s then Some 0
  else match s with
       | [] => None
       | _ :: s' => S <$> find w s'
       end.

Definition chars (w : str) : list node := List.map (λ c, One (CLit c)) w.

Definition block_re (w1 w2 : str) : pattern :=
  [chars w1 ++ [Rep CAny 0 false] ++ chars w2].

End ReNotions.

(** ** Notions used to state facts about the normalizer *)

Module NormalizerNotions.
Import PyStr Re Normalizer.

(** The tag delimiters of a string, in order. *)
Definition angle (c : char) : bool := ((c =? LT) || (c =? GT))%N.

Fixpoint brackets (s : str) : str :=
  match s with
  | [] => []
  | c :: s' => if angle c then c :: brackets s' else brackets s'
  end.

(** No [<] stands before a [>]. *)
Definition settled (l : str) : Prop := ∃ a b, l = repeat GT a ++ repeat LT b.

(** Position of the first [>]. *)
Fixpoint first_gt (s : str) : option nat :=
  match s with
  | [] => None
  | c :: s' => if (c =? GT)%N then Some 0 else S <$> first_gt s'
  end.

End NormalizerNotions.

(** ** Notions used to state facts about the store *)

Module StoreNotions.
Import PyStr Py Store Handlers System.

Definition reap_map (now : float) (m : gmap str info) (e : str * info)
    : gmap str info :=
  if expired now e.2 then delete e.1 m else m.

Definition expired_entry (now : float) (e : str * info) : Prop :=
  expired now e.2 = true.

#[export] Instance expired_entry_dec now e : Decision (expired_entry now e).
Proof. unfold expired_entry. apply _. Defined.

(** Every browser is held by at most one place: a session entry, a running
    [create_session], or the list of stopped browsers; and no browser is on
    that list twice. *)
Record inv (st : state) : Prop := Inv {
  inv_nodup : NoDup (stopped st);
  inv_stopped : ∀ b, b ∈ stopped st → b < launched st;
  inv_pending : ∀ b, b ∈ pending st → b < launched st ∧ b ∉ stopped st;
  inv_live : ∀ sid i, sessions st !! sid = Some i →
    browser i < launched st ∧ (browser i ∉ pending st)
    ∧ (running st = true → browser i ∉ stopped st);
  inv_inj : ∀ sid1 sid2 i1 i2,
    sessions st !! sid1 = Some i1 → sessions st !! sid2 = Some i2 →
    browser i1 = browser i2 → sid1 = sid2
}.

End StoreNotions.

(** ** Notions used to state facts about the handlers *)

Module ChatNotions.
Import PyStr Py Store Handlers System.

Definition not_found_error : exc :=
  HTTPException 404 (py "Session not found").

Definition index_error : exc :=
  Unhandled (PyErr "IndexError" (py "list index out of range")).

(** The JSON body of a turn that went through. *)
Definition chat_response (last_response : str) (files : json) : json :=
  JObj [(py "response",
         JStr (Normalizer.extract_text_from_html last_response));
        (py "status", JStr (py "success"));
        (py "files_uploaded", if truthy files then files else JNull)].



(** The state after [send_file] on each of [paths]. *)
Definition sent (p : handle) (paths : list json) (st : state) : state :=
  foldl (λ s path, send_file p path s) st paths.



End ChatNotions.

(** ** Concrete runs and environments *)

Module Scenarios.
Import PyStr Py Store Handlers System.

(** A run that exercises every kind of event: two sessions, a refresh, a
    logout (twice), a reaper cycle that evicts the second session, a third
    session, shutdown. *)
Definition demo_trace : list event :=
  [EvLaunch; EvRegister 0 10 (py "s1") 1000%float;
   EvLaunch; EvRegister 1 11 (py "s2") 1500%float;
   EvRefresh (py "s1") 1600%float;
   EvLogout (py "s1"); EvLogout (py "s1");
   EvReap 2200%float; EvLogout (py "s2");
   EvLaunch; EvRegister 2 12 (py "s3") 2300%float;
   EvChatTouch (py "s3") 2400%float; EvSendFile 12 (JStr (py "/tmp/a.txt"));
   EvShutdown].

Definition demo_final : state := default init (run demo_trace init).

(** Two live sessions, one last used at 1000 s and one at 1500 s. *)
Definition two_sessions_trace : list event :=
  [EvLaunch; EvRegister 0 10 (py "old") 1000%float;
   EvLaunch; EvRegister 1 11 (py "new") 1500%float].

Definition two_sessions : state :=
  default init (run two_sessions_trace init).

(** A login in which every awaited call goes through. *)
Definition good_login (token : str) (now : float) : create_env :=
  CreateEnv (Return (JObj [(py "username", JStr (py "u@example.org"));
                           (py "password", JStr (py "secret"))]))
            None (Return 7) None None (λ _, None) None (λ _, None) None None
            token now.

Definition logged_in : state :=
  after (create_session (good_login (py "tok-1") 1000%float)) init.


Definition logged_out : state := after (logout (py "tok-1")) logged_in.



(** The login button is not found. *)
Definition no_button : create_env :=
  CreateEnv (Return (JObj [(py "username", JStr (py "u@example.org"));
                           (py "password", JStr (py "secret"))]))
            None (Return 7) None None (λ _, None) None (λ _, None)
            (Some (PyErr "TimeoutError" (py "time ran out while waiting for text: Log in")))
            None (py "tok-2") 1000%float.

Definition one_session : state :=
  default init (run [EvLaunch; EvRegister 0 10 (py "s1") 1000%float] init).

Definition one_session_touched : state :=
  store (py "s1") (Info 0 10 1100%float) one_session.

(** A turn without attachments in which the send button is found at the
    third attempt and the answer is complete at the second check. *)
Definition plain_turn (response_elements : list str) : chat_env :=
  ChatEnv (Return (JObj [(py "prompt", JStr (py "hello"))]))
          1100%float None (λ _, Return false) (λ _, None) None (λ _, None)
          (λ n, bool_decide (2 ≤ n)) (λ n, bool_decide (1 ≤ n))
          (Return response_elements).


(** The file input is not on the page. *)
Definition no_file_input : chat_env :=
  ChatEnv (Return (JObj [(py "prompt", JStr (py "hello"));
                         (py "files", JStr (py "/tmp/report.pdf"))]))
          1100%float
          (Some (PyErr "TimeoutError" (py "time ran out while waiting for input[type='file']")))
          (λ _, Return true) (λ _, None) None (λ _, None)
          (λ n, bool_decide (2 ≤ n)) (λ n, bool_decide (1 ≤ n))
          (Return [py "<div><p>Hi</p></div>"]).

(** The send button never gets enabled. *)
Definition stuck_turn : chat_env :=
  ChatEnv (Return (JObj [(py "prompt", JStr (py "hello"))]))
          1100%float None (λ _, Return false) (λ _, None) None (λ _, None)
          (λ _, false) (λ _, true) (Return [py "<div><p>Hi</p></div>"]).

End Scenarios.

(** ** Notions used to state further properties *)

Module MoreNotions.
Import PyStr Py Re Normalizer Store Handlers System.

(** No two spaces in a row; [b] tells whether a space stands right before
    the string. *)
Fixpoint spaced (b : bool) (s : str) : bool :=
  match s with
  | [] => true
  | c :: s' => if (c =? SP)%N then negb b && spaced true s'
               else spaced false s'
  end.

Definition no_double_space (s : str) : bool := spaced false s.

(** The number of [c] at the start of [s]. *)
Fixpoint run_of (c : char) (s : str) : nat :=
  match s with
  | d :: s' => if (d =? c)%N then S (run_of c s') else 0
  | [] => 0
  end.

(** The sequence starts with a literal [<]. *)
Definition opens_with_lt (ns : list node) : bool :=
  match ns with
  | One (CLit c) :: _ | One (CLitI c) :: _ => (c =? LT)%N
  | _ => false
  end.

(** No line starts or ends with a space; [bol] tells whether a line starts
    here. *)
Fixpoint trimmed_lines (bol : bool) (s : str) : bool :=
  match s with
  | [] => true
  | c :: s' =>
      if (c =? SP)%N then negb bol && negb (at_eol s') && trimmed_lines false s'
      else trimmed_lines (c =? LF)%N s'
  end.

(** [n] lines that hold one space each, then [s]. *)
Fixpoint blank_lines (n : nat) (s : str) : str :=
  match n with
  | O => s
  | S n' => SP :: LF :: blank_lines n' s
  end.

(** No entry of [sessions] holds the browser [b]. *)
Definition unowned (b : handle) (st : state) : Prop :=
  ∀ sid i, sessions st !! sid = Some i → browser i ≠ b.

(** The event registers a session around the browser [b]. *)
Definition registers_browser (b : handle) (ev : event) : Prop :=
  match ev with
  | EvRegister b' _ _ _ => b' = b
  | _ => False
  end.

(** The decoded body is a JSON object, a [dict] in Python. *)
Definition is_dict (v : json) : bool :=
  match v with
  | JObj _ => true
  | _ => false
  end.

Definition key_error (sid : str) : exc := Unhandled (PyErr "KeyError" sid).

(** A turn whose [files] is the empty list, on a page that has no file
    input. *)
Definition empty_files_turn : chat_env :=
  ChatEnv (Return (JObj [(py "prompt", JStr (py "hello"));
                         (py "files", JList [])]))
          1100%float
          (Some (PyErr "TimeoutError" (py "time ran out while waiting for input[type='file']")))
          (λ _, Return true) (λ _, None) None (λ _, None)
          (λ n, bool_decide (2 ≤ n)) (λ n, bool_decide (1 ≤ n))
          (Return [py "<div><p>Hi</p></div>"]).


(** A body that is a JSON array. *)
Definition array_login : create_env :=
  CreateEnv (Return (JList [JStr (py "u@example.org"); JStr (py "secret")]))
            None (Return 7) None None (λ _, None) None (λ _, None) None None
            (py "tok-9") 1000%float.

Definition array_turn : chat_env :=
  ChatEnv (Return (JList [JStr (py "hello")]))
          1100%float None (λ _, Return true) (λ _, None) None (λ _, None)
          (λ _, true) (λ _, true) (Return [py "<div><p>Hi</p></div>"]).

End MoreNotions.

(** ** Facts about the matcher *)

Module ReFacts.
Import PyStr Re ReNotions.

(** A repetition either stops (when it may) or takes one more character. *)
Lemma rep_cases cs greedy k min prev s n :
  rep cs greedy k min prev s = Some n →
  (min = 0 ∧ k prev s = Some n)
  ∨ (∃ c s' m, s = c :: s' ∧ mem cs c = true ∧ n = S m
       ∧ rep cs greedy k (Nat.pred min) (Some c) s' = Some m).
Proof.
  destruct s as [|c s]; simpl.
  - destruct greedy, min; try discriminate;
      destruct (k prev []); try discriminate; intros [= <-]; auto.
  - destruct (mem cs c) eqn:Hc;
      [destruct (rep cs greedy k (Nat.pred min) (Some c) s) as [m|] eqn:Hm|];
      destruct greedy, min; simpl; try discriminate;
      try (destruct (k prev (c :: s)); try discriminate);
      intros [= <-]; auto; right; exists c, s; eauto.
Qed.

Lemma rep_within P cs greedy k :
  (∀ c, mem cs c = true → P c = true) → within P k →
  ∀ min, within P (rep cs greedy k min).
Proof.
  unfold within. intros Hcs Hk min prev s. revert min prev.
  induction s as [|c s IH]; intros min prev n Hn;
    apply rep_cases in Hn as [[_ Hn]|(c' & s' & m & Hs & Hc & -> & Hm)];
    try (apply Hk in Hn; exact Hn); try discriminate.
  injection Hs as <- <-. apply IH in Hm as [Hle Hall].
  simpl. rewrite (Hcs _ Hc), Hall. split; [lia | done].
Qed.

Lemma match_seq_within P ns :
  Forall (node_within P) ns → within P (match_seq ns).
Proof.
  unfold within. induction 1 as [|n ns Hn _ IH]; intros prev s m.
  - simpl. intros [= <-]. split; [lia | done].
  - destruct n as [cs|cs min greedy| |]; simpl in *.
    + destruct s as [|c s]; [done|].
      destruct (mem cs c) eqn:Hc; [|done].
      destruct (match_seq ns (Some c) s) as [j|] eqn:Hj; [|done].
      simpl. intros [= <-]. apply IH in Hj as [Hle Hall]. simpl.
      rewrite (Hn _ Hc), Hall. split; [lia | done].
    + apply rep_within; assumption.
    + destruct (at_bol prev); [apply IH | done].
    + destruct (at_eol s); [apply IH | done].
Qed.

Lemma match_alt_within P p prev s n :
  Forall (Forall (node_within P)) p → match_alt p prev s = Some n →
  n ≤ length s ∧ forallb P (take n s) = true.
Proof.
  induction 1 as [|ns p Hns _ IH]; simpl; [done|].
  destruct (match_seq ns prev s) as [j|] eqn:Hj.
  - intros [= <-]. eapply match_seq_within; eauto.
  - exact IH.
Qed.

(** [re.sub] puts nothing into its result but characters of the subject
    and of the replacement. *)
Lemma sub_from_elem p repl x : ∀ s prev skip,
  In x (sub_from p repl prev skip s) → In x s ∨ In x repl.
Proof.
  induction s as [|c s IH]; intros prev skip; simpl; [tauto|].
  destruct skip as [|k].
  - destruct (match_alt p prev (c :: s)) as [[|n]|].
    + simpl. intros [->|H]; [tauto|]. apply IH in H. tauto.
    + rewrite in_app_iff. intros [H|H]; [tauto|]. apply IH in H. tauto.
    + simpl. intros [->|H]; [tauto|]. apply IH in H. tauto.
  - intros H. apply IH in H. tauto.
Qed.

Lemma rep_consumes cs greedy k min :
  (min = 0 → ∀ prev s n, k prev s = Some n → 0 < n) →
  ∀ prev s n, rep cs greedy k min prev s = Some n → 0 < n.
Proof.
  intros Hk prev s n Hn.
  apply rep_cases in Hn as [[Hmin Hn]|(c & s' & m & _ & _ & -> & _)];
    [eauto | lia].
Qed.

Lemma match_seq_consumes ns :
  consuming ns = true → ∀ prev s n, match_seq ns prev s = Some n → 0 < n.
Proof.
  induction ns as [|n' ns IH]; simpl; [done|].
  destruct n' as [cs|cs min greedy| |]; simpl.
  - intros _ prev [|c s] n; [done|].
    destruct (mem cs c); [|done].
    destruct (match_seq ns (Some c) s); simpl; [|done]. intros [= <-]. lia.
  - intros Hns. apply rep_consumes. intros ->. apply IH. exact Hns.
  - intros Hns prev s n. destruct (at_bol prev); [apply IH, Hns | done].
  - intros Hns prev s n. destruct (at_eol s); [apply IH, Hns | done].
Qed.

Lemma match_alt_consumes p prev s n :
  forallb consuming p = true → match_alt p prev s = Some n → 0 < n.
Proof.
  induction p as [|ns p IH]; simpl; [done|].
  intros [Hns Hp]%andb_true_iff.
  destruct (match_seq ns prev s) as [m|] eqn:Hm; [|by apply IH].
  intros [= <-]. by eapply match_seq_consumes.
Qed.

Lemma rep_prev cs greedy (k : matcher) min s :
  (∀ prev prev' t, k prev t = k prev' t) →
  ∀ prev prev', rep cs greedy k min prev s = rep cs greedy k min prev' s.
Proof.
  intros Hk prev prev'. destruct s as [|c s]; simpl;
    by rewrite (Hk prev prev').
Qed.

Lemma match_seq_prev ns :
  anchor_free ns = true →
  ∀ prev prev' s, match_seq ns prev s = match_seq ns prev' s.
Proof.
  induction ns as [|n ns IH]; simpl; [done|].
  destruct n as [cs|cs min greedy| |]; try done.
  intros Hns prev prev' s. apply rep_prev. intros. by apply IH.
Qed.

Lemma match_alt_prev p :
  forallb anchor_free p = true →
  ∀ prev prev' s, match_alt p prev s = match_alt p prev' s.
Proof.
  induction p as [|ns p IH]; simpl; [done|].
  intros [Hns Hp]%andb_true_iff prev prev' s.
  by rewrite (match_seq_prev ns Hns prev prev'), (IH Hp prev prev').
Qed.

Lemma sub_from_prev p repl :
  forallb anchor_free p = true →
  ∀ s prev prev' skip,
    sub_from p repl prev skip s = sub_from p repl prev' skip s.
Proof.
  intros Hp. induction s as [|c s IH]; intros prev prev' skip; [done|].
  cbn [sub_from]. destruct skip; [|done].
  by rewrite (match_alt_prev p Hp prev prev').
Qed.

(** After a match the scan goes on behind it. *)
Lemma sub_from_skip p repl :
  forallb anchor_free p = true →
  ∀ skip s prev, sub_from p repl prev skip s = sub p repl (drop skip s).
Proof.
  intros Hp. unfold sub. induction skip as [|k IH]; intros s prev.
  - rewrite drop_0. by apply sub_from_prev.
  - destruct s as [|c s]; [done|]. simpl. apply IH.
Qed.

(** *** Patterns of the form [open.*?close] *)

Lemma anchor_free_chars w ns :
  anchor_free (chars w ++ ns) = anchor_free ns.
Proof. induction w as [|c w IH]; simpl; [done | exact IH]. Qed.

Lemma match_chars w ns :
  anchor_free ns = true →
  ∀ prev prev' s,
    match_seq (chars w ++ ns) prev s =
    if starts_with w s
    then Nat.add (length w) <$> match_seq ns prev' (drop (length w) s)
    else None.
Proof.
  intros Hns. induction w as [|c w IH]; intros prev prev' s.
  - simpl. rewrite drop_0, (match_seq_prev ns Hns prev prev').
    by destruct (match_seq ns prev' s).
  - destruct s as [|d s]; [done|]. simpl.
    destruct (d =? c)%N; [|done]. simpl.
    rewrite (IH (Some d) prev').
    destruct (starts_with w s); [|done].
    by destruct (match_seq ns prev' (drop (length w) s)).
Qed.

Lemma match_chars_end w prev s :
  match_seq (chars w) prev s =
  if starts_with w s then Some (length w) else None.
Proof.
  rewrite <- (app_nil_r (chars w)), (match_chars w [] eq_refl prev None).
  destruct (starts_with w s); [|done]. simpl. f_equal. lia.
Qed.

Lemma rep_any_lazy w : ∀ s prev,
  rep CAny false (match_seq (chars w)) 0 prev s =
  (λ j, j + length w) <$> find w s.
Proof.
  induction s as [|c s IH]; intros prev; cbn [rep find mem];
    rewrite match_chars_end.
  - by destruct (starts_with w []).
  - destruct (starts_with w (c :: s)); [done|].
    rewrite IH. by destruct (find w s).
Qed.

Lemma match_block w1 w2 prev s :
  match_alt (block_re w1 w2) prev s =
  if starts_with w1 s
  then (λ j, length w1 + (j + length w2)) <$> find w2 (drop (length w1) s)
  else None.
Proof.
  assert (Hns : anchor_free ([Rep CAny 0 false] ++ chars w2) = true).
  { simpl. by rewrite <- (app_nil_r (chars w2)), anchor_free_chars. }
  unfold block_re. cbn [match_alt].
  rewrite (match_chars w1 _ Hns prev None).
  destruct (starts_with w1 s); [|done].
  cbn [app match_seq]. rewrite rep_any_lazy.
  by destruct (find w2 (drop (length w1) s)).
Qed.

Lemma starts_with_app w u v :
  length w ≤ length u → starts_with w (u ++ v) = starts_with w u.
Proof.
  revert u. induction w as [|c w IH]; intros [|d u] Hle; simpl in *;
    try done; try lia.
  rewrite IH; [done | lia].
Qed.

Lemma starts_with_self w v : starts_with w (w ++ v) = true.
Proof.
  induction w as [|c w IH]; simpl; [done|]. by rewrite N.eqb_refl.
Qed.

Lemma find_start w s : starts_with w s = true → find w s = Some 0.
Proof. intros H. destruct s; simpl; by rewrite H. Qed.

Lemma find_here w u :
  find w (u ++ w) = Some (length u) →
  ∀ v, find w (u ++ w ++ v) = Some (length u).
Proof.
  induction u as [|d u IH]; intros Hf v.
  - apply find_start. exact (starts_with_self w v).
  - cbn [app find] in Hf |- *.
    destruct (starts_with w (d :: u ++ w)) eqn:Hs; [done|].
    destruct (find w (u ++ w)) as [j|] eqn:Hj; [|done].
    simpl in Hf. injection Hf as ->.
    assert (Hs' : starts_with w (d :: u ++ w ++ v) = false).
    { replace (d :: u ++ w ++ v) with ((d :: u ++ w) ++ v)
        by (simpl; by rewrite <- app_assoc).
      rewrite starts_with_app; [done|]. simpl. rewrite length_app. lia. }
    rewrite Hs', (IH eq_refl v). done.
Qed.

Lemma block_re_anchor_free w1 w2 :
  forallb anchor_free (block_re w1 w2) = true.
Proof.
  unfold block_re. cbn [forallb]. rewrite anchor_free_chars. simpl.
  rewrite <- (app_nil_r (chars w2)), anchor_free_chars. done.
Qed.

(** The first block [w1 .. w2] of a string is cut out, and the scan goes
    on behind it. *)
Lemma sub_block w1 w2 a b c :
  w1 ≠ [] →
  find w1 (a ++ w1) = Some (length a) →
  find w2 (b ++ w2) = Some (length b) →
  sub (block_re w1 w2) [] (a ++ w1 ++ b ++ w2 ++ c)
  = a ++ sub (block_re w1 w2) [] c.
Proof.
  intros Hw1 Ha Hb. induction a as [|d a IH].
  - destruct w1 as [|x w1]; [done|]. clear Ha Hw1.
    unfold sub at 1. cbn [app sub_from].
    rewrite match_block.
    change (x :: w1 ++ b ++ w2 ++ c) with ((x :: w1) ++ b ++ w2 ++ c).
    rewrite starts_with_self, drop_app_length, (find_here _ _ Hb c).
    cbn [fmap option_fmap option_map length Nat.add app].
    rewrite (sub_from_skip _ _ (block_re_anchor_free _ _)).
    f_equal.
    replace (w1 ++ b ++ w2 ++ c) with ((w1 ++ b ++ w2) ++ c)
      by (by rewrite <- !app_assoc).
    apply drop_app_length'. rewrite !length_app. lia.
  - cbn [app find] in Ha.
    destruct (starts_with w1 (d :: a ++ w1)) eqn:Hs; [done|].
    destruct (find w1 (a ++ w1)) as [j|] eqn:Hj; [|done].
    simpl in Ha. injection Ha as ->.
    assert (Hs' : starts_with w1 (d :: a ++ w1 ++ b ++ w2 ++ c) = false).
    { replace (d :: a ++ w1 ++ b ++ w2 ++ c)
        with ((d :: a ++ w1) ++ b ++ w2 ++ c)
        by (simpl; by rewrite <- app_assoc).
      rewrite starts_with_app; [done|]. simpl. rewrite length_app. lia. }
    unfold sub at 1. cbn [app sub_from]. rewrite match_block, Hs'.
    rewrite (sub_from_prev _ _ (block_re_anchor_free _ _) _ _ None).
    f_equal. by apply IH.
Qed.

(** Without the opening word nothing is cut. *)
Lemma sub_block_none w1 w2 s :
  find w1 s = None → sub (block_re w1 w2) [] s = s.
Proof.
  unfold sub. generalize (@None N).
  induction s as [|d s IH]; intros prev Hf; [done|].
  cbn [find] in Hf. destruct (starts_with w1 (d :: s)) eqn:Hs; [done|].
  destruct (find w1 s) eqn:Hj; [done|].
  cbn [sub_from]. rewrite match_block, Hs. f_equal. by apply IH.
Qed.

End ReFacts.

(** ** Facts about the text normalizer *)

Module NormalizerFacts.
Import PyStr Re Normalizer ReNotions NormalizerNotions ReFacts.

(** Every pattern of [extract_text_from_html] takes at least one character
    where it matches. *)
Lemma patterns_consume :
  Forall (λ p, forallb consuming p = true)
    ([script_re; style_re; comment_re; tag_re; spaces_re; newlines_re; edges_re]
       ++ List.map open_re block_tags ++ List.map close_re block_tags).
Proof. repeat constructor. Qed.

Lemma brackets_app s t : brackets (s ++ t) = brackets s ++ brackets t.
Proof.
  induction s as [|c s IH]; simpl; [done|].
  destruct (angle c); simpl; by rewrite IH.
Qed.

Lemma brackets_rev s : brackets (rev s) = rev (brackets s).
Proof.
  induction s as [|c s IH]; simpl; [done|].
  rewrite brackets_app, IH. simpl. destruct (angle c); simpl; [done|].
  by rewrite app_nil_r.
Qed.

Lemma brackets_drop_plain n s :
  forallb (λ c, negb (angle c)) (take n s) = true →
  brackets (drop n s) = brackets s.
Proof.
  revert s. induction n as [|n IH]; intros [|c s]; simpl; try done.
  destruct (angle c); simpl; [done|]. apply IH.
Qed.

Lemma isspace_plain c : isspace c = true → angle c = false.
Proof.
  unfold isspace, angle, LT, GT. intros H.
  destruct (N.eqb_spec c 60) as [->|_]; [discriminate H|].
  destruct (N.eqb_spec c 62) as [->|_]; [discriminate H|]. done.
Qed.

Lemma brackets_lstrip s : brackets (lstrip s) = brackets s.
Proof.
  induction s as [|c s IH]; simpl; [done|].
  destruct (isspace c) eqn:Hc; [|done].
  by rewrite (isspace_plain _ Hc).
Qed.

Lemma brackets_strip s : brackets (strip s) = brackets s.
Proof.
  unfold strip, rstrip.
  by rewrite brackets_rev, brackets_lstrip, brackets_rev, rev_involutive,
    brackets_lstrip.
Qed.

(** A substitution whose pattern takes no tag delimiter and whose
    replacement has none leaves the delimiters as they are. *)
Lemma brackets_sub_from p repl :
  Forall (Forall (node_within (λ c, negb (angle c)))) p →
  brackets repl = [] →
  ∀ s prev skip,
    skip ≤ length s →
    forallb (λ c, negb (angle c)) (take skip s) = true →
    brackets (sub_from p repl prev skip s) = brackets s.
Proof.
  intros Hp Hrepl. induction s as [|c s IH]; intros prev skip Hle Hall.
  - done.
  - simpl. destruct skip as [|k].
    + destruct (match_alt p prev (c :: s)) as [[|n]|] eqn:Hm.
      * simpl. rewrite (IH _ 0); [done | lia | done].
      * apply (match_alt_within _ _ _ _ _ Hp) in Hm as [Hn Hpl].
        simpl in Hn, Hpl. apply andb_true_iff in Hpl as [Hc Hpl].
        rewrite brackets_app, Hrepl. simpl.
        apply negb_true_iff in Hc. rewrite Hc. apply IH; [lia | done].
      * simpl. rewrite (IH _ 0); [done | lia | done].
    + simpl in Hle, Hall. apply andb_true_iff in Hall as [Hc Hall].
      apply negb_true_iff in Hc. rewrite Hc. apply IH; [lia | done].
Qed.

Lemma brackets_sub p repl s :
  Forall (Forall (node_within (λ c, negb (angle c)))) p →
  brackets repl = [] →
  brackets (sub p repl s) = brackets s.
Proof.
  intros Hp Hrepl. apply brackets_sub_from; [done | done | simpl; lia | done].
Qed.

Lemma only_char_plain a c : (c =? a)%N = true → angle a = false → negb (angle c) = true.
Proof. intros ->%N.eqb_eq ->. done. Qed.

Lemma brackets_clean_whitespace s :
  brackets (clean_whitespace s) = brackets s.
Proof.
  unfold clean_whitespace. rewrite brackets_strip.
  rewrite !brackets_sub; try done;
    repeat constructor; simpl; intros c Hc;
    eapply only_char_plain; eauto.
Qed.

(** *** The last tag substitution, [re.sub(r'<[^>]*>', ' ', ..)] *)

Lemma rep_not_gt prev s :
  rep (CNot GT) true (match_seq [One (CLit GT)]) 0 prev s = S <$> first_gt s.
Proof.
  revert prev. induction s as [|c s IH]; intros prev; [done|].
  cbn [rep first_gt mem Nat.pred]. rewrite IH.
  destruct (c =? GT)%N eqn:Hc; simpl.
  - by rewrite Hc.
  - destruct (first_gt s); simpl; [done|]. by rewrite Hc.
Qed.

Lemma match_tag prev c s :
  match_alt tag_re prev (c :: s) =
  if (c =? LT)%N then S <$> (S <$> first_gt s) else None.
Proof.
  unfold tag_re. cbn [match_alt match_seq mem].
  destruct (c =? LT)%N; [|done].
  rewrite rep_not_gt. by destruct (first_gt s).
Qed.

Lemma first_gt_None s : first_gt s = None → ¬ In GT s.
Proof.
  induction s as [|c s IH]; simpl; [tauto|].
  destruct (N.eqb_spec c GT); [done|].
  destruct (first_gt s); [done|]. intros _ [?|?]; [done | by apply IH].
Qed.

Lemma first_gt_Some s m :
  first_gt s = Some m →
  m < length s ∧ forallb (λ c, negb (c =? GT)%N) (take m s) = true.
Proof.
  revert m. induction s as [|c s IH]; intros m; simpl; [done|].
  destruct (c =? GT)%N eqn:Hc.
  - intros [= <-]. split; [lia | done].
  - destruct (first_gt s) as [j|]; [|done]. simpl. intros [= <-].
    destruct (IH j eq_refl) as [Hlt Hall]. simpl. rewrite Hc, Hall.
    split; [lia | done].
Qed.

Lemma sub_tag_cons repl c s :
  sub tag_re repl (c :: s) =
  if (c =? LT)%N
  then match first_gt s with
       | Some m => repl ++ sub tag_re repl (drop (S m) s)
       | None => c :: sub tag_re repl s
       end
  else c :: sub tag_re repl s.
Proof.
  unfold sub at 1. cbn [sub_from]. rewrite match_tag.
  destruct (c =? LT)%N.
  - destruct (first_gt s); simpl.
    + by rewrite sub_from_skip.
    + by rewrite (sub_from_prev tag_re _ eq_refl _ _ None).
  - by rewrite (sub_from_prev tag_re _ eq_refl _ _ None).
Qed.

Lemma brackets_elem x s : In x (brackets s) → In x s ∧ (x = LT ∨ x = GT).
Proof.
  induction s as [|c s IH]; simpl; [tauto|].
  destruct (angle c) eqn:Hc.
  - simpl. intros [->|H].
    + split; [tauto|]. unfold angle in Hc.
      apply orb_true_iff in Hc as [?%N.eqb_eq|?%N.eqb_eq]; tauto.
    + apply IH in H. tauto.
  - intros H. apply IH in H. tauto.
Qed.

Lemma all_same (x : N) l : (∀ y, In y l → y = x) → l = repeat x (length l).
Proof.
  induction l as [|y l IH]; simpl; [done|].
  intros H. rewrite (H y) by tauto. f_equal. apply IH. auto.
Qed.

Lemma settled_sub_tag s : settled (brackets (sub tag_re [SP] s)).
Proof.
  remember (length s) as n eqn:Hn. revert s Hn.
  induction n as [n IH] using lt_wf_ind. intros [|c s] Hn.
  - exists 0, 0. done.
  - rewrite sub_tag_cons. simpl in Hn.
    destruct (N.eqb_spec c LT) as [->|Hlt].
    + destruct (first_gt s) as [m|] eqn:Hm.
      * apply first_gt_Some in Hm as [Hm _].
        change ([SP] ++ ?t) with (SP :: t). cbn [brackets angle].
        change ((SP =? LT)%N || (SP =? GT)%N) with false. cbv iota.
        eapply (IH (length (drop (S m) s))); [|done].
        rewrite length_drop. lia.
      * apply first_gt_None in Hm. exists 0, (S (length (brackets (sub tag_re [SP] s)))).
        simpl. f_equal. apply all_same. intros y Hy.
        apply brackets_elem in Hy as [Hy [-> | ->]]; [done|].
        apply sub_from_elem in Hy as [Hy|Hy]; [done|].
        simpl in Hy. destruct Hy as [Hy|Hy]; [discriminate Hy | done].
    + destruct (IH (length s)) with (s := s) as (a & b & Hab); [lia | done |].
      simpl. unfold angle at 1.
      destruct (N.eqb_spec c LT) as [?|_]; [done|]. simpl.
      destruct (N.eqb_spec c GT) as [->|_].
      * rewrite Hab. by exists (S a), b.
      * rewrite Hab. by exists a, b.
Qed.

Lemma settled_split l o1 o2 :
  settled (brackets l) → l = o1 ++ LT :: o2 → Forall (λ c, c ≠ GT) o2.
Proof.
  intros (a & b & Hab) ->.
  rewrite brackets_app in Hab. simpl in Hab.
  assert (Hin : ∀ x, In x o2 → x = GT → In GT (brackets o2)).
  { intros x Hx ->. clear -Hx. induction o2 as [|c o2 IH]; simpl in *; [done|].
    destruct Hx as [->|Hx]; [simpl; tauto|].
    destruct (angle c); simpl; auto. }
  apply Forall_forall. intros x Hx%list_elem_of_In Hgt.
  specialize (Hin x Hx Hgt). clear x Hx Hgt.
  revert Hab Hin. generalize (brackets o1) (brackets o2). clear.
  intros l1 l2. revert l1. induction a as [|a IH]; intros l1 Hab Hin.
  - assert (Hall : In GT (repeat LT b)).
    { simpl in Hab. rewrite <- Hab. apply in_or_app. right. by right. }
    apply repeat_spec in Hall. discriminate Hall.
  - destruct l1 as [|x l1]; simpl in Hab; [discriminate Hab|].
    injection Hab as _ Hab. eauto.
Qed.

End NormalizerFacts.

(** ** Facts about the handlers' store segments *)

Module HandlerFacts.
Import PyStr Py Store Handlers.

Lemma logout_eq sid st :
  logout sid st =
  match sessions st !! sid with
  | None => Some (Raise (HTTPException 404 (py "Session not found")), st)
  | Some i => Some (Return (JObj [(py "status", JStr (py "logged_out"))]),
                    pop sid (stop (browser i) st))
  end.
Proof. unfold logout, bind, read. by destruct (sessions st !! sid). Qed.

Lemma touch_eq sid now st :
  touch sid now st =
  match sessions st !! sid with
  | None => Some (Raise (Unhandled (PyErr "KeyError" sid)), st)
  | Some i => Some (Return (Info (browser i) (page i) now),
                    store sid (Info (browser i) (page i) now) st)
  end.
Proof. unfold touch, bind, read. by destruct (sessions st !! sid). Qed.

Lemma refresh_eq sid now st :
  refresh sid now st =
  match sessions st !! sid with
  | None => Some (Raise (HTTPException 404 (py "Session not found")), st)
  | Some i => Some (Return (JObj [(py "status", JStr (py "refreshed"))]),
                    store sid (Info (browser i) (page i) now) st)
  end.
Proof.
  unfold refresh, bind, read. destruct (sessions st !! sid) eqn:H; [|done].
  rewrite touch_eq, H. done.
Qed.

Lemma send_chat_not_found fuel env sid st :
  sessions st !! sid = None →
  send_chat fuel env sid st =
  Some (Raise (HTTPException 404 (py "Session not found")), st).
Proof. intros H. unfold send_chat, bind, read. by rewrite H. Qed.

Lemma send_chat_found fuel env sid st i :
  sessions st !! sid = Some i →
  send_chat fuel env sid st = send_chat_body fuel env sid st.
Proof. intros H. unfold send_chat, bind, read. by rewrite H. Qed.

End HandlerFacts.

(** ** Facts about the reaper, shutdown and interleavings *)

Module StoreFacts.
Import PyStr Py Store Handlers System StoreNotions HandlerFacts.

(** *** The clock comparison *)

Lemma SFcompare_Lt_asym x y :
  SFcompare x y = Some Lt → SFcompare y x = Some Gt.
Proof.
  destruct x as [sx|sx| |sx mx ex], y as [sy|sy| |sy my ey]; simpl;
    try discriminate;
    try (destruct sx; try destruct sy; simpl; congruence).
  destruct sx, sy; simpl; try congruence;
    rewrite (Z.compare_antisym ex ey);
    destruct (ex ?= ey)%Z eqn:He; simpl; try congruence;
    change (Pos.compare_cont Eq my mx) with (Pos.compare my mx);
    change (Pos.compare_cont Eq mx my) with (Pos.compare mx my);
    rewrite (Pos.compare_antisym mx my);
    destruct (mx ?= my)%positive; simpl; congruence.
Qed.

Lemma ltb_asym x y : (x <? y)%float = true → (y <? x)%float = false.
Proof.
  rewrite !ltb_spec. unfold SFltb.
  destruct (SFcompare (Prim2SF x) (Prim2SF y)) as [[]|] eqn:H;
    try discriminate.
  intros _. by rewrite (SFcompare_Lt_asym _ _ H).
Qed.

(** *** One reaper cycle *)

Lemma reap_fold now l : ∀ st,
  foldl (reap_one now) st l =
  State (foldl (reap_map now) (sessions st) l)
        (reverse ((browser ∘ snd) <$> filter (expired_entry now) l)
           ++ stopped st)
        (uploaded st) (launched st) (pending st) (running st).
Proof.
  induction l as [|[k i] l IH]; intros st.
  - by destruct st.
  - cbn [foldl]. rewrite IH.
    change (reap_map now (sessions st) (k, i))
      with (if expired now i then delete k (sessions st) else sessions st).
    change (reap_one now st (k, i))
      with (if expired now i then pop k (stop (browser i) st) else st).
    destruct (expired now i) eqn:He.
    + rewrite filter_cons_True by exact He.
      rewrite fmap_cons, reverse_cons, <- app_assoc. done.
    + rewrite filter_cons_False; [done|].
      unfold expired_entry. simpl. by rewrite He.
Qed.

Lemma reap_map_absent now l : ∀ (m : gmap str info) k,
  m !! k = None → foldl (reap_map now) m l !! k = None.
Proof.
  induction l as [|[k' i] l IH]; intros m k Hk; [done|].
  simpl. apply IH. unfold reap_map. simpl.
  destruct (expired now i); [|done].
  destruct (decide (k' = k)) as [->|Hne];
    [apply lookup_delete_eq | by rewrite lookup_delete_ne].
Qed.

Lemma reap_map_kept now l : ∀ (m : gmap str info) k,
  (∀ i, (k, i) ∈ l → expired now i = false) →
  foldl (reap_map now) m l !! k = m !! k.
Proof.
  induction l as [|[k' i] l IH]; intros m k Hk; [done|].
  simpl. rewrite IH.
  - unfold reap_map. simpl. destruct (expired now i) eqn:He; [|done].
    destruct (decide (k' = k)) as [->|Hne]; [|by rewrite lookup_delete_ne].
    rewrite (Hk i) in He; [done | left].
  - intros j Hj. apply Hk. by right.
Qed.

Lemma reap_map_gone now l : ∀ (m : gmap str info) k i,
  (k, i) ∈ l → expired now i = true →
  foldl (reap_map now) m l !! k = None.
Proof.
  induction l as [|[k' i'] l IH]; intros m k i Hin He.
  - by apply elem_of_nil in Hin.
  - apply elem_of_cons in Hin as [[= -> ->]|Hin].
    + simpl. apply reap_map_absent. unfold reap_map. simpl.
      rewrite He. apply lookup_delete_eq.
    + simpl. by apply (IH _ _ i).
Qed.

Lemma cleanup_cycle_sessions now st sid :
  sessions (cleanup_cycle now st) !! sid =
  sessions st !! sid ≫= λ i, if expired now i then None else Some i.
Proof.
  unfold cleanup_cycle. rewrite reap_fold. simpl.
  destruct (sessions st !! sid) as [i|] eqn:Hi; simpl.
  - destruct (expired now i) eqn:He.
    + apply (reap_map_gone _ _ _ _ i); [by apply elem_of_map_to_list | done].
    + rewrite reap_map_kept; [done|].
      intros j Hj%elem_of_map_to_list. congruence.
  - by apply reap_map_absent.
Qed.

Lemma cleanup_cycle_stopped now st :
  stopped (cleanup_cycle now st) =
  reverse ((browser ∘ snd) <$>
             filter (expired_entry now) (map_to_list (sessions st)))
    ++ stopped st.
Proof. unfold cleanup_cycle. by rewrite reap_fold. Qed.

Lemma cleanup_cycle_rest now st :
  uploaded (cleanup_cycle now st) = uploaded st
  ∧ launched (cleanup_cycle now st) = launched st
  ∧ pending (cleanup_cycle now st) = pending st
  ∧ running (cleanup_cycle now st) = running st.
Proof. unfold cleanup_cycle. by rewrite reap_fold. Qed.

(** *** Shutdown *)

Lemma stop_fold l : ∀ st,
  foldl (λ s (e : str * info), stop (browser e.2) s) st l =
  State (sessions st) (reverse ((browser ∘ snd) <$> l) ++ stopped st)
        (uploaded st) (launched st) (pending st) (running st).
Proof.
  induction l as [|e l IH]; intros st.
  - by destruct st.
  - cbn [foldl]. rewrite IH. simpl.
    by rewrite reverse_cons, <- app_assoc.
Qed.

Lemma shutdown_eq st :
  shutdown st =
  State (sessions st)
        (reverse ((browser ∘ snd) <$> map_to_list (sessions st)) ++ stopped st)
        (uploaded st) (launched st) (pending st) false.
Proof. unfold shutdown. by rewrite stop_fold. Qed.

End StoreFacts.

(** ** The ownership invariant *)

Module Ownership.
Import PyStr Py Store Handlers System StoreNotions HandlerFacts StoreFacts.

Lemma inv_init : inv init.
Proof.
  split; simpl.
  - constructor.
  - intros b Hb. by apply elem_of_nil in Hb.
  - intros b Hb. by apply elem_of_empty in Hb.
  - intros sid i Hi. by rewrite lookup_empty in Hi.
  - intros sid1 sid2 i1 i2 Hi. by rewrite lookup_empty in Hi.
Qed.

(** The browsers of distinct entries of the dictionary are distinct. *)
Lemma browsers_nodup st (l : list (str * info)) :
  inv st → NoDup l → (∀ e, e ∈ l → e ∈ map_to_list (sessions st)) →
  NoDup ((browser ∘ snd) <$> l).
Proof.
  intros Hinv Hl Hsub. apply NoDup_fmap_2_strong; [|done].
  intros [k1 i1] [k2 i2] H1%Hsub%elem_of_map_to_list
    H2%Hsub%elem_of_map_to_list Hb. simpl in Hb.
  assert (k1 = k2) as -> by (by eapply inv_inj). congruence.
Qed.

Lemma inv_launch st : inv st → inv (snd (launch st)).
Proof.
  intros [Hnd Hst Hpe Hli Hin]. split; simpl.
  - done.
  - intros b Hb%Hst. lia.
  - intros b [->%elem_of_singleton|Hb]%elem_of_union.
    + split; [lia|]. intros Hb%Hst. lia.
    + destruct (Hpe b Hb). split; [lia | done].
  - intros sid i Hi. destruct (Hli sid i Hi) as (Hlt & Hnp & Hns).
    split; [lia|]. split; [|done].
    intros [Hb%elem_of_singleton|Hb]%elem_of_union; [lia | done].
  - done.
Qed.

Lemma inv_register b p sid now st :
  inv st → b ∈ pending st → inv (register b p sid now st).
Proof.
  intros [Hnd Hst Hpe Hli Hin] Hb. destruct (Hpe b Hb) as [Hblt Hbns].
  split; simpl.
  - done.
  - done.
  - intros b' [Hb' _]%elem_of_difference. by apply Hpe.
  - intros sid' i. destruct (decide (sid = sid')) as [->|Hne].
    + rewrite lookup_insert_eq. intros [= <-]. simpl.
      split; [done|]. split; [|done].
      intros [_ Hne]%elem_of_difference. apply Hne. by apply elem_of_singleton.
    + rewrite lookup_insert_ne by done. intros Hi.
      destruct (Hli sid' i Hi) as (Hlt & Hnp & Hns).
      split; [done|]. split; [|done].
      intros [Hp _]%elem_of_difference. done.
  - intros sid1 sid2 i1 i2.
    destruct (decide (sid = sid1)) as [<-|Hne1],
             (decide (sid = sid2)) as [<-|Hne2];
      rewrite ?lookup_insert_eq, ?lookup_insert_ne by done; try done.
    + intros [= <-] Hi2 Hbb. simpl in Hbb.
      destruct (Hli sid2 i2 Hi2) as (_ & Hnp & _). by rewrite <- Hbb in Hnp.
    + intros Hi1 [= <-] Hbb. simpl in Hbb.
      destruct (Hli sid1 i1 Hi1) as (_ & Hnp & _). by rewrite Hbb in Hnp.
    + apply Hin.
Qed.

Lemma inv_store sid i now st :
  inv st → sessions st !! sid = Some i →
  inv (store sid (Info (browser i) (page i) now) st).
Proof.
  intros [Hnd Hst Hpe Hli Hin] Hi. split; simpl; try done.
  - intros sid' i'. destruct (decide (sid = sid')) as [->|Hne].
    + rewrite lookup_insert_eq. intros [= <-]. simpl. by apply (Hli sid').
    + rewrite lookup_insert_ne by done. apply Hli.
  - intros sid1 sid2 i1 i2.
    destruct (decide (sid = sid1)) as [<-|Hne1],
             (decide (sid = sid2)) as [<-|Hne2];
      rewrite ?lookup_insert_eq, ?lookup_insert_ne by done; try done.
    + intros [= <-] Hi2 Hbb. simpl in Hbb. by apply (Hin _ _ _ _ Hi Hi2).
    + intros Hi1 [= <-] Hbb. simpl in Hbb. by apply (Hin _ _ _ _ Hi1 Hi).
    + apply Hin.
Qed.

Lemma inv_logout sid i st :
  inv st → running st = true → sessions st !! sid = Some i →
  inv (pop sid (stop (browser i) st)).
Proof.
  intros [Hnd Hst Hpe Hli Hin] Hrun Hi.
  destruct (Hli sid i Hi) as (Hlt & Hnp & Hns). specialize (Hns Hrun).
  split; simpl.
  - by apply NoDup_cons.
  - intros b [->|Hb]%elem_of_cons; [done | by apply Hst].
  - intros b Hb. destruct (Hpe b Hb) as [Hblt Hbns]. split; [done|].
    intros [->|Hb']%elem_of_cons; done.
  - intros sid' i'. destruct (decide (sid = sid')) as [->|Hne].
    + by rewrite lookup_delete_eq.
    + rewrite lookup_delete_ne by done. intros Hi'.
      destruct (Hli sid' i' Hi') as (Hlt' & Hnp' & Hns').
      split; [done|]. split; [done|]. intros _.
      intros [Hbb|Hb]%elem_of_cons; [|by apply Hns'].
      apply Hne. by apply (Hin _ _ _ _ Hi Hi').
  - intros sid1 sid2 i1 i2 H1 H2.
    apply lookup_delete_Some in H1 as [_ H1].
    apply lookup_delete_Some in H2 as [_ H2]. by apply Hin.
Qed.

Lemma inv_cleanup_cycle now st :
  inv st → running st = true → inv (cleanup_cycle now st).
Proof.
  intros Hinv Hrun.
  pose proof (cleanup_cycle_sessions now st) as Hs.
  pose proof (cleanup_cycle_stopped now st) as Hstop.
  destruct (cleanup_cycle_rest now st) as (_ & Hla & Hpen & Hru).
  set (new := (browser ∘ snd) <$>
                filter (expired_entry now) (map_to_list (sessions st))) in *.
  assert (Hnew : ∀ b, b ∈ new →
            ∃ sid i, sessions st !! sid = Some i ∧ expired now i = true
                     ∧ browser i = b).
  { intros b ([k i] & -> & [He Hin%elem_of_map_to_list]%list_elem_of_filter)
      %list_elem_of_fmap.
    by exists k, i. }
  assert (Hsub : ∀ sid i, sessions (cleanup_cycle now st) !! sid = Some i →
            sessions st !! sid = Some i ∧ expired now i = false).
  { intros sid i. rewrite Hs. destruct (sessions st !! sid) as [j|]; [|done].
    simpl. destruct (expired now j) eqn:He; [done|]. by intros [= <-]. }
  destruct Hinv as [Hnd Hst Hpe Hli Hin].
  split; rewrite ?Hstop, ?Hla, ?Hpen, ?Hru.
  - apply NoDup_app. split; [|split; [|done]].
    + rewrite reverse_Permutation.
      apply (browsers_nodup st); [by split | |].
      * apply NoDup_filter, NoDup_map_to_list.
      * by intros e [_ He]%list_elem_of_filter.
    + intros b (sid & i & Hi & _ & <-)%elem_of_reverse%Hnew.
      by apply (Hli sid i Hi).
  - intros b [(sid & i & Hi & _ & <-)%elem_of_reverse%Hnew|Hb]%elem_of_app.
    + by apply (Hli sid i Hi).
    + by apply Hst.
  - intros b Hb. destruct (Hpe b Hb) as [Hblt Hbns]. split; [done|].
    intros [(sid & i & Hi & _ & <-)%elem_of_reverse%Hnew|Hb']%elem_of_app;
      [|done].
    by destruct (Hli sid i Hi) as (_ & Hnp & _).
  - intros sid i [Hi He]%Hsub.
    destruct (Hli sid i Hi) as (Hlt & Hnp & Hns).
    split; [done|]. split; [done|]. intros _.
    intros [(sid' & i' & Hi' & He' & Hbb)%elem_of_reverse%Hnew|Hb]%elem_of_app;
      [|by apply Hns].
    assert (sid' = sid) as -> by (by eapply Hin). congruence.
  - intros sid1 sid2 i1 i2 [H1 _]%Hsub [H2 _]%Hsub. by apply Hin.
Qed.

Lemma inv_shutdown st : inv st → running st = true → inv (shutdown st).
Proof.
  intros Hinv Hrun. rewrite shutdown_eq.
  assert (Hall : ∀ b, b ∈ (browser ∘ snd) <$> map_to_list (sessions st) →
            ∃ sid i, sessions st !! sid = Some i ∧ browser i = b).
  { intros b ([k i] & -> & Hin%elem_of_map_to_list)%list_elem_of_fmap.
    by exists k, i. }
  pose proof (browsers_nodup st (map_to_list (sessions st)) Hinv
                (NoDup_map_to_list _) (λ _ H, H)) as Hnd'.
  destruct Hinv as [Hnd Hst Hpe Hli Hin]. split; simpl.
  - apply NoDup_app. split; [by rewrite reverse_Permutation|]. split; [|done].
    intros b (sid & i & Hi & <-)%elem_of_reverse%Hall. by apply (Hli sid i Hi).
  - intros b [(sid & i & Hi & <-)%elem_of_reverse%Hall|Hb]%elem_of_app.
    + by apply (Hli sid i Hi).
    + by apply Hst.
  - intros b Hb. destruct (Hpe b Hb) as [Hblt Hbns]. split; [done|].
    intros [(sid & i & Hi & <-)%elem_of_reverse%Hall|Hb']%elem_of_app; [|done].
    by destruct (Hli sid i Hi) as (_ & Hnp & _).
  - intros sid i Hi. destruct (Hli sid i Hi) as (Hlt & Hnp & _). done.
  - done.
Qed.

Lemma inv_send_file p path st : inv st → inv (send_file p path st).
Proof. by intros []. Qed.

Lemma exec_running ev st st' : exec ev st = Some st' → running st = true.
Proof. unfold exec. by destruct (running st). Qed.

Lemma inv_exec ev st st' : inv st → exec ev st = Some st' → inv st'.
Proof.
  intros Hinv Hex. pose proof (exec_running _ _ _ Hex) as Hrun.
  unfold exec in Hex. rewrite Hrun in Hex.
  destruct ev as [|b p sid now|sid|sid now|sid now|p path|now|].
  - injection Hex as <-. by apply inv_launch.
  - destruct (decide (b ∈ pending st)); [|done].
    injection Hex as <-. by apply inv_register.
  - injection Hex as <-. unfold after. rewrite logout_eq.
    destruct (sessions st !! sid) eqn:Hi; [by apply inv_logout | done].
  - injection Hex as <-. unfold after. rewrite refresh_eq.
    destruct (sessions st !! sid) eqn:Hi; [by apply inv_store | done].
  - injection Hex as <-. unfold after. rewrite touch_eq.
    destruct (sessions st !! sid) eqn:Hi; [by apply inv_store | done].
  - injection Hex as <-. by apply inv_send_file.
  - injection Hex as <-. by apply inv_cleanup_cycle.
  - injection Hex as <-. by apply inv_shutdown.
Qed.

Lemma inv_run evs : ∀ st st', inv st → run evs st = Some st' → inv st'.
Proof.
  induction evs as [|ev evs IH]; intros st st' Hinv; simpl.
  - by intros [= <-].
  - destruct (exec ev st) as [st1|] eqn:Hex; [|done].
    apply IH. by eapply inv_exec.
Qed.

Lemma inv_reachable st : reachable st → inv st.
Proof. intros [evs Hrun]. eapply inv_run; [apply inv_init | done]. Qed.

End Ownership.

(** ** The text normalizer: properties *)

Module NormalizerProps.
Import PyStr Re Normalizer ReNotions NormalizerNotions ReFacts NormalizerFacts.

(** C6: the normalizer maps [<p>Hi</p><script>evil()</script><p>Bye</p>]
    to the two lines [Hi] and [Bye] with exactly one empty line between
    them, that is to ["Hi\n\nBye"]. *)
Theorem normalizer_example :
  extract_text_from_html (py "<p>Hi</p><script>evil()</script><p>Bye</p>")
  = py "Hi" ++ [LF; LF] ++ py "Bye".
Proof. vm_compute. reflexivity. Qed.

(** C7, as stated, fails: [re.sub(r'<[^>]*>', ' ', ..)] removes tags, and a
    [<] or [>] that is not part of a tag is text. Here both survive. *)
Lemma lone_delimiters_survive :
  extract_text_from_html (py "2 > 1 < 3") = py "2 > 1 < 3"
  ∧ In GT (extract_text_from_html (py "2 > 1 < 3"))
  ∧ In LT (extract_text_from_html (py "2 > 1 < 3")).
Proof. vm_compute. tauto. Qed.

(** C7, amended: for every input, the output of the normalizer holds no
    tag, that is no [<] with a [>] anywhere after it. *)
Theorem output_has_no_tag (s o1 o2 : str) :
  extract_text_from_html s = o1 ++ LT :: o2 → Forall (λ c, c ≠ GT) o2.
Proof.
  intros H. eapply settled_split; [|exact H].
  unfold extract_text_from_html. rewrite brackets_clean_whitespace.
  unfold strip_tags. apply settled_sub_tag.
Qed.

Lemma output_has_no_tag_witness : Forall (λ c, c ≠ GT) (py " 3").
Proof.
  apply (output_has_no_tag (py "2 > 1 < 3") (py "2 > 1 ") (py " 3")).
  vm_compute. reflexivity.
Defined.

(** C8: the content of a script element must not reach the output. The
    source removes [<script ...</script>] in lower case only, while the
    block tags below it are matched with [re.IGNORECASE]: the content of an
    upper-case script element is returned as text. *)
Theorem uppercase_script_content_leaks :
  extract_text_from_html (py "<script>evil()</script>") = []
  ∧ extract_text_from_html (py "<SCRIPT>evil()</SCRIPT>") = py "evil()"
  ∧ extract_text_from_html (py "<STYLE>p{color:red}</STYLE>ok")
    = py "p{color:red} ok".
Proof. vm_compute. tauto. Qed.

(** X1: when the input is [a + '<script' + b + '</script>' + c], this
    [<script] being the first of the input and this [</script>] the first
    after it (both in lower case, as the pattern has them), the first
    substitution cuts the block out, and the output of the normalizer does
    not depend on the content [b]. *)
Theorem lowercase_script_block_is_cut (a b c : str) :
  find (py "<script") (a ++ py "<script") = Some (length a) →
  find (py "</script>") (b ++ py "</script>") = Some (length b) →
  sub script_re [] (a ++ py "<script" ++ b ++ py "</script>" ++ c)
  = a ++ sub script_re [] c
  ∧ ∀ b', find (py "</script>") (b' ++ py "</script>") = Some (length b') →
      extract_text_from_html (a ++ py "<script" ++ b ++ py "</script>" ++ c)
      = extract_text_from_html (a ++ py "<script" ++ b' ++ py "</script>" ++ c).
Proof.
  intros Ha Hb.
  assert (Hcut : ∀ x, find (py "</script>") (x ++ py "</script>")
                      = Some (length x) →
            sub script_re [] (a ++ py "<script" ++ x ++ py "</script>" ++ c)
            = a ++ sub script_re [] c).
  { intros x Hx. by apply (sub_block (py "<script") (py "</script>")). }
  split; [by apply Hcut|]. intros b' Hb'.
  unfold extract_text_from_html, strip_tags.
  by rewrite (Hcut b Hb), (Hcut b' Hb').
Qed.

Lemma lowercase_script_block_is_cut_witness :
  sub script_re [] (py "<p>Hi</p><script>evil()</script><p>Bye</p>")
  = py "<p>Hi</p><p>Bye</p>".
Proof.
  refine (proj1 (lowercase_script_block_is_cut (py "<p>Hi</p>") (py ">evil()")
            (py "<p>Bye</p>") _ _)); vm_compute; reflexivity.
Defined.

(** X2: the same for a lower-case style block, in an input without any
    [<script]: the block is cut out and the output does not depend on its
    content. *)
Theorem lowercase_style_block_is_cut (a b b' c : str) :
  find (py "<style") (a ++ py "<style") = Some (length a) →
  find (py "</style>") (b ++ py "</style>") = Some (length b) →
  find (py "</style>") (b' ++ py "</style>") = Some (length b') →
  find (py "<script") (a ++ py "<style" ++ b ++ py "</style>" ++ c) = None →
  find (py "<script") (a ++ py "<style" ++ b' ++ py "</style>" ++ c) = None →
  sub style_re [] (a ++ py "<style" ++ b ++ py "</style>" ++ c)
  = a ++ sub style_re [] c
  ∧ extract_text_from_html (a ++ py "<style" ++ b ++ py "</style>" ++ c)
    = extract_text_from_html (a ++ py "<style" ++ b' ++ py "</style>" ++ c).
Proof.
  intros Ha Hb Hb' Hs Hs'.
  assert (Hcut : ∀ x, find (py "</style>") (x ++ py "</style>")
                      = Some (length x) →
            sub style_re [] (a ++ py "<style" ++ x ++ py "</style>" ++ c)
            = a ++ sub style_re [] c).
  { intros x Hx. by apply (sub_block (py "<style") (py "</style>")). }
  split; [by apply Hcut|].
  unfold extract_text_from_html, strip_tags.
  change script_re with (block_re (py "<script") (py "</script>")).
  rewrite (sub_block_none (py "<script") (py "</script>") _ Hs).
  rewrite (sub_block_none (py "<script") (py "</script>") _ Hs').
  by rewrite (Hcut b Hb), (Hcut b' Hb').
Qed.

Lemma lowercase_style_block_is_cut_witness :
  extract_text_from_html (py "<b>x</b><style>p{color:red}</style>y")
  = extract_text_from_html (py "<b>x</b><style></style>y").
Proof.
  refine (proj2 (lowercase_style_block_is_cut (py "<b>x</b>")
            (py ">p{color:red}") (py ">") (py "y") _ _ _ _ _));
    vm_compute; reflexivity.
Defined.

(** C9: the normalizer is not idempotent. The newline runs are cut down to
    two before the spaces at the line ends are removed, so a line of spaces
    between two paragraphs leaves four newlines in a row; a second pass
    cuts them down to two. *)
Theorem normalizer_not_idempotent :
  extract_text_from_html (py "<p>a</p><p> </p><p>b</p>")
  = py "a" ++ [LF; LF; LF; LF] ++ py "b"
  ∧ extract_text_from_html
      (extract_text_from_html (py "<p>a</p><p> </p><p>b</p>"))
    = py "a" ++ [LF; LF] ++ py "b".
Proof. vm_compute. tauto. Qed.

End NormalizerProps.

(** ** The session store: properties *)

Module StoreProps.
Import PyStr Py Store Handlers System StoreNotions ChatNotions Scenarios.
Import HandlerFacts StoreFacts Ownership.

(** C1: in every state reached by interleaving the handlers' segments with
    reaper cycles and the shutdown, no browser has been stopped twice: the
    log of [stop()] calls has no duplicate. A logout and the reaper, or two
    removals of one id, therefore never both tear a session down. *)
Theorem browser_stopped_at_most_once (evs : list event) (st : state) :
  run evs init = Some st → NoDup (stopped st).
Proof. intros H. eapply inv_nodup, inv_run; [apply inv_init | exact H]. Qed.

Lemma browser_stopped_at_most_once_witness :
  stopped demo_final = [2; 1; 0] ∧ NoDup (stopped demo_final).
Proof.
  split; [vm_compute; reflexivity|].
  apply (browser_stopped_at_most_once demo_trace).
  vm_compute. reflexivity.
Defined.

(** C2: one reaper cycle at time [now] removes exactly the sessions with
    [now - last > SESSION_TIMEOUT] (600 s) and leaves every other entry as
    it is; the browsers it stops are exactly those of the removed sessions,
    each once, none of them stopped before; and a session used less than
    [SESSION_TIMEOUT] ago stays. *)
Theorem reaper_cycle_exact (now : float) (st : state) :
  reachable st → running st = true →
  SESSION_TIMEOUT = 600%float
  ∧ (∀ sid, sessions (cleanup_cycle now st) !! sid =
        sessions st !! sid ≫= λ i,
          if (SESSION_TIMEOUT <? now - last i)%float then None else Some i)
  ∧ (∃ l, stopped (cleanup_cycle now st) = l ++ stopped st
        ∧ NoDup (l ++ stopped st)
        ∧ ∀ b, b ∈ l ↔ ∃ sid i, sessions st !! sid = Some i
                 ∧ (SESSION_TIMEOUT <? now - last i)%float = true
                 ∧ browser i = b)
  ∧ (∀ sid i, sessions st !! sid = Some i →
        (now - last i <? SESSION_TIMEOUT)%float = true →
        sessions (cleanup_cycle now st) !! sid = Some i).
Proof.
  intros Hreach Hrun. pose proof (inv_reachable _ Hreach) as Hinv.
  split; [reflexivity|]. split; [apply cleanup_cycle_sessions|]. split.
  - eexists. split; [apply cleanup_cycle_stopped|]. split.
    + rewrite <- cleanup_cycle_stopped.
      by apply inv_nodup, inv_cleanup_cycle.
    + intros b. rewrite elem_of_reverse, list_elem_of_fmap. split.
      * intros ([k i] & -> & [He Hin%elem_of_map_to_list]%list_elem_of_filter).
        by exists k, i.
      * intros (sid & i & Hi & He & <-). exists (sid, i). split; [done|].
        apply list_elem_of_filter. split; [exact He|].
        by apply elem_of_map_to_list.
  - intros sid i Hi Hlt. rewrite cleanup_cycle_sessions, Hi.
    unfold expired. cbn [mbind option_bind].
    by rewrite (ltb_asym _ _ Hlt).
Qed.

Lemma reaper_cycle_exact_witness :
  sessions (cleanup_cycle 1700%float two_sessions) !! py "old" = None
  ∧ sessions (cleanup_cycle 1700%float two_sessions) !! py "new"
    = Some (Info 1 11 1500%float)
  ∧ stopped (cleanup_cycle 1700%float two_sessions) = [0].
Proof.
  assert (Hreach : reachable two_sessions).
  { exists two_sessions_trace. vm_compute. reflexivity. }
  destruct (reaper_cycle_exact 1700%float two_sessions Hreach eq_refl)
    as (_ & Hs & _ & Hkeep).
  split; [|split].
  - rewrite Hs. vm_compute. reflexivity.
  - apply Hkeep; vm_compute; reflexivity.
  - vm_compute. reflexivity.
Defined.

(** X3: while the server runs, no session of [sessions] holds a browser
    that has been stopped, and no two sessions hold the same browser. *)
Theorem live_sessions_own_their_browser
    (evs : list event) (st : state) (sid : str) (i : info) :
  run evs init = Some st → running st = true →
  sessions st !! sid = Some i →
  (browser i ∉ stopped st)
  ∧ ∀ sid' i', sessions st !! sid' = Some i' → browser i' = browser i →
      sid' = sid.
Proof.
  intros Hrun Hr Hi.
  assert (Hinv : inv st) by (eapply inv_run; [apply inv_init | exact Hrun]).
  split.
  - by apply (inv_live _ Hinv sid i Hi).
  - intros sid' i' Hi' Hb. by apply (inv_inj _ Hinv _ _ _ _ Hi' Hi).
Qed.

Lemma live_sessions_own_their_browser_witness :
  (1 ∉ stopped two_sessions)
  ∧ ∀ sid' i', sessions two_sessions !! sid' = Some i' →
      browser i' = 1 → sid' = py "new".
Proof.
  apply (live_sessions_own_their_browser two_sessions_trace two_sessions
           (py "new") (Info 1 11 1500%float));
    vm_compute; reflexivity.
Defined.

(** X4: a session refreshed at time [now] is still there, with its new
    [last], after a reaper cycle at a time [later] with
    [later - now < SESSION_TIMEOUT]. *)
Theorem refreshed_session_survives
    (st : state) (sid : str) (i : info) (now later : float) :
  sessions st !! sid = Some i →
  (later - now <? SESSION_TIMEOUT)%float = true →
  refresh sid now st
  = Some (Return (JObj [(py "status", JStr (py "refreshed"))]),
          store sid (Info (browser i) (page i) now) st)
  ∧ sessions (cleanup_cycle later (store sid (Info (browser i) (page i) now) st))
      !! sid
    = Some (Info (browser i) (page i) now).
Proof.
  intros Hi Hlt. split; [by rewrite refresh_eq, Hi|].
  rewrite cleanup_cycle_sessions. simpl. rewrite lookup_insert_eq.
  unfold expired. cbn [mbind option_bind last].
  by rewrite (ltb_asym _ _ Hlt).
Qed.

Lemma refreshed_session_survives_witness :
  sessions (cleanup_cycle 2199%float
              (store (py "old") (Info 0 10 1600%float) two_sessions))
    !! py "old"
  = Some (Info 0 10 1600%float).
Proof.
  refine (proj2 (refreshed_session_survives two_sessions (py "old")
            (Info 0 10 1000%float) 1600%float 2199%float _ _));
    vm_compute; reflexivity.
Defined.

End StoreProps.

(** ** Session ids and the login flow: properties *)

Module LifecycleProps.
Import PyStr Py Store Handlers System StoreNotions ChatNotions Scenarios.
Import HandlerFacts StoreFacts Ownership.

(** Case analysis on the outcome [x] of the next call of a handler; the
    branch in which the call raises ends the handler. *)
Ltac call x :=
  destruct x eqn:?; simpl;
  try (eexists _, _; split; [reflexivity|]; simpl; by eauto 10).

Lemma create_session_cases env st :
  ∃ r st', create_session env st = Some (r, st') ∧
  match r with
  | Return v =>
      v = JObj [(py "session_id", JStr (c_token env))]
      ∧ c_body env = None ∧ c_email env = None ∧ c_pwd env = None
      ∧ c_button env = None ∧ c_click env = None
      ∧ ∃ p, c_get env = Return p
          ∧ st' = register (launched st) p (c_token env) (c_now env)
                    (snd (launch st))
  | Raise e => st' = st ∨ st' = snd (launch st)
  end.
Proof.
  unfold create_session, bind, lift, update, ret, raise, await_, uc_start.
  destruct env as [cj cs cg cb ce cek cp cpk cbt cc tok now]; simpl.
  call cj. call (dict_get a "username"). call (dict_get a "password").
  call cs. call cg. call cb. call ce. call (cek a0). call cp.
  call (cpk a1). call cbt. call cc.
Qed.






(** C4: if the navigation, the wait for the page body, the lookup of the
    username or of the password field, the lookup of the login button or
    the click on it raises, [create_session] raises (the error of the first
    call that failed), and [sessions] is as it was before the call. *)
Theorem failed_login_registers_nothing (env : create_env) (st : state) :
  (∃ e, c_get env = Raise e) ∨ is_Some (c_body env) ∨ is_Some (c_email env)
  ∨ is_Some (c_pwd env) ∨ is_Some (c_button env) ∨ is_Some (c_click env) →
  ∃ e st', create_session env st = Some (Raise e, st')
           ∧ sessions st' = sessions st.
Proof.
  intros Hfail.
  destruct (create_session_cases env st) as ([v|e] & st' & Hc & Hr).
  - destruct Hr as (_ & Hb & He & Hp & Hbt & Hcl & p & Hg & _).
    rewrite Hg, Hb, He, Hp, Hbt, Hcl in Hfail.
    destruct Hfail as [[e [=]]|[[e [=]]|[[e [=]]|[[e [=]]|[[e [=]]|[e [=]]]]]]].
  - exists e, st'. by destruct Hr as [-> | ->].
Qed.

Lemma failed_login_registers_nothing_witness :
  ∃ e st', create_session no_button logged_in = Some (Raise e, st')
           ∧ sessions st' = sessions logged_in.
Proof.
  apply (failed_login_registers_nothing no_button logged_in).
  do 4 right. left. vm_compute. eauto.
Defined.

End LifecycleProps.

(** ** The chat turn: properties *)

Module ChatProps.
Import PyStr Py Store Handlers System ChatNotions Scenarios HandlerFacts.

Lemma bind_return {A B} (m : M A) (k : A → M B) st a st1 :
  m st = Some (Return a, st1) → bind m k st = k a st1.
Proof. unfold bind. by intros ->. Qed.

Lemma bind_raise {A B} (m : M A) (k : A → M B) st e st1 :
  m st = Some (Raise e, st1) → bind m k st = Some (Raise e, st1).
Proof. unfold bind. by intros ->. Qed.

Lemma bind_returned {A B} (m : M A) (k : A → M B) st b st' :
  bind m k st = Some (Return b, st') →
  ∃ a st1, m st = Some (Return a, st1) ∧ k a st1 = Some (Return b, st').
Proof.
  unfold bind. destruct (m st) as [[[a|e] st1]|]; [eauto | done | done].
Qed.

Lemma lift_eq {A} (r : result A) st : lift r st = Some (r, st).
Proof. done. Qed.

(** A polling loop ends as soon as one attempt goes through, and leaves
    the state alone. *)
Lemma retry_returns attempt : ∀ k fuel n st,
  attempt (n + k) = true → k < fuel →
  retry attempt fuel n st = Some (Return tt, st).
Proof.
  induction k as [|k IH]; intros [|fuel] n st Hk Hlt; try lia; simpl.
  - rewrite Nat.add_0_r in Hk. by rewrite Hk.
  - destruct (attempt n); [done|]. apply IH; [|lia].
    by rewrite Nat.add_succ_comm.
Qed.

Lemma retry_returned attempt : ∀ fuel n st r st',
  retry attempt fuel n st = Some (r, st') → r = Return tt ∧ st' = st.
Proof.
  induction fuel as [|fuel IH]; intros n st r st'; simpl; [done|].
  destruct (attempt n); [by intros [= <- <-] | apply IH].
Qed.

Lemma list_getitem_last {A} (l : list A) x :
  list_getitem (l ++ [x]) (-1) = Return x.
Proof.
  unfold list_getitem. rewrite length_app. simpl.
  replace (-1 + Z.of_nat (length l + 1))%Z with (Z.of_nat (length l)) by lia.
  destruct (Z.leb_spec 0 (Z.of_nat (length l))); [|lia].
  destruct (Z.ltb_spec (Z.of_nat (length l)) (Z.of_nat (length l + 1)));
    [|lia].
  simpl. rewrite Nat2Z.id. by rewrite list_lookup_middle.
Qed.

Lemma extract_response_cases env files st :
  extract_response env files st =
  match q_select_all env with
  | Raise e => Some (Raise e, st)
  | Return l =>
      match list_getitem l (-1) with
      | Raise e => Some (Raise e, st)
      | Return x => Some (Return (chat_response x files), st)
      end
  end.
Proof.
  unfold extract_response, bind, lift, ret.
  destruct (q_select_all env) as [l|e]; [|done].
  by destruct (list_getitem l (-1)).
Qed.

(** What the extraction makes of a turn that got that far. *)
Lemma extraction_after_converse fuel env sid st st1 files :
  is_Some (sessions st !! sid) →
  converse fuel env sid st = Some (Return files, st1) →
  (q_select_all env = Return [] →
     send_chat fuel env sid st = Some (Raise index_error, st1))
  ∧ (∀ l x, q_select_all env = Return (l ++ [x]) →
       send_chat fuel env sid st = Some (Return (chat_response x files), st1)).
Proof.
  intros [i Hi] Hconv.
  rewrite (send_chat_found _ _ _ _ _ Hi). unfold send_chat_body.
  rewrite (bind_return _ _ _ _ _ Hconv), extract_response_cases.
  split.
  - intros ->. done.
  - intros l x ->. by rewrite list_getitem_last.
Qed.

(** *** Attachments *)

(** The turn up to the upload block, when the request decodes and the
    session is still there after [await request.json()]. *)
Lemma converse_unfold fuel env sid st i data prompt files :
  sessions st !! sid = Some i →
  q_json env = Return data →
  dict_get data "prompt" = Return prompt →
  dict_get data "files" = Return files →
  converse fuel env sid st =
  (upload_files env (page i) files >>
   await_ (q_input env) >>
   await_ (q_input_keys env prompt) >>
   retry (q_send env) fuel 0 >>
   retry (q_done env) fuel 0 >>
   ret files) (store sid (Info (browser i) (page i) (q_now env)) st).
Proof.
  intros Hi Hjson Hprompt Hfiles. unfold converse.
  rewrite (bind_return _ _ _ data st) by (by rewrite Hjson).
  rewrite (bind_return _ _ _ prompt st) by (by rewrite Hprompt).
  rewrite (bind_return _ _ _ files st) by (by rewrite Hfiles).
  erewrite bind_return; [|by rewrite touch_eq, Hi]. done.
Qed.

Lemma converse_returned fuel env sid st i data prompt files f st' :
  sessions st !! sid = Some i →
  q_json env = Return data →
  dict_get data "prompt" = Return prompt →
  dict_get data "files" = Return files →
  converse fuel env sid st = Some (Return f, st') → f = files.
Proof.
  intros Hi Hjson Hprompt Hfiles.
  rewrite (converse_unfold _ _ _ _ _ _ _ _ Hi Hjson Hprompt Hfiles).
  intros (_ & s1 & _ & H)%bind_returned.
  apply bind_returned in H as (_ & s2 & _ & H).
  apply bind_returned in H as (_ & s3 & _ & H).
  apply bind_returned in H as (_ & s4 & _ & H).
  apply bind_returned in H as (_ & s5 & _ & H).
  by injection H as <- _.
Qed.

Lemma files_uploaded_echo x files :
  dict_get (chat_response x files) "files_uploaded"
  = Return (if truthy files then files else JNull).
Proof. reflexivity. Qed.



(** With enough fuel for both polling loops the turn gets to the
    extraction. *)
Lemma converse_returns env sid st i data prompt files st2 k1 k2 fuel :
  sessions st !! sid = Some i →
  q_json env = Return data →
  dict_get data "prompt" = Return prompt →
  dict_get data "files" = Return files →
  upload_files env (page i) files
    (store sid (Info (browser i) (page i) (q_now env)) st)
  = Some (Return tt, st2) →
  q_input env = None → q_input_keys env prompt = None →
  q_send env k1 = true → q_done env k2 = true →
  k1 < fuel → k2 < fuel →
  converse fuel env sid st = Some (Return files, st2).
Proof.
  intros Hi Hjson Hprompt Hfiles Hup Hin Hkeys Hsend Hdone Hk1 Hk2.
  rewrite (converse_unfold _ _ _ _ _ _ _ _ Hi Hjson Hprompt Hfiles).
  rewrite (bind_return _ _ _ _ _ Hup), Hin, Hkeys.
  rewrite (bind_return _ _ _ tt st2) by done.
  rewrite (bind_return _ _ _ tt st2) by done.
  rewrite (bind_return _ _ _ tt st2) by (by apply (retry_returns _ k1)).
  rewrite (bind_return _ _ _ tt st2) by (by apply (retry_returns _ k2)).
  done.
Qed.



(** C10: a turn that gets as far as the extraction (the request decodes,
    the session is there, the upload block and the prompt entry go through,
    each polling loop succeeds at some attempt, and the fuel covers them)
    takes [response_elements[-1]] without looking at the length of the
    list. When [select_all] returns no element, the turn ends in an
    [IndexError] that nothing handles (it is neither the 404 nor the 500 of
    the upload block); when it returns at least one, the turn returns the
    normalized text of the last. *)
Theorem extraction_needs_a_response_element
    (env : chat_env) (sid : str) (st st2 : state) (i : info)
    (data prompt files : json) (k1 k2 fuel : nat) :
  sessions st !! sid = Some i →
  q_json env = Return data →
  dict_get data "prompt" = Return prompt →
  dict_get data "files" = Return files →
  upload_files env (page i) files
    (store sid (Info (browser i) (page i) (q_now env)) st)
  = Some (Return tt, st2) →
  q_input env = None → q_input_keys env prompt = None →
  q_send env k1 = true → q_done env k2 = true →
  k1 < fuel → k2 < fuel →
  (q_select_all env = Return [] →
     send_chat fuel env sid st = Some (Raise index_error, st2))
  ∧ (∀ l x, q_select_all env = Return (l ++ [x]) →
       send_chat fuel env sid st = Some (Return (chat_response x files), st2)).
Proof.
  intros Hi Hjson Hprompt Hfiles Hup Hin Hkeys Hsend Hdone Hk1 Hk2.
  apply extraction_after_converse; [by eexists|].
  by eapply converse_returns.
Qed.

Lemma extraction_needs_a_response_element_witness :
  send_chat 5 (plain_turn []) (py "s1") one_session
  = Some (Raise index_error, one_session_touched)
  ∧ send_chat 5 (plain_turn [py "<div><p>old</p></div>"; py "<div><p>Hi</p></div>"])
      (py "s1") one_session
    = Some (Return (chat_response (py "<div><p>Hi</p></div>") JNull),
            one_session_touched).
Proof.
  split.
  - refine (proj1 (extraction_needs_a_response_element (plain_turn [])
              (py "s1") one_session one_session_touched (Info 0 10 1000%float)
              (JObj [(py "prompt", JStr (py "hello"))]) (JStr (py "hello"))
              JNull 2 1 5 _ _ _ _ _ _ _ _ _ _ _) _);
      try (vm_compute; reflexivity); lia.
  - refine (proj2 (extraction_needs_a_response_element
              (plain_turn [py "<div><p>old</p></div>"; py "<div><p>Hi</p></div>"])
              (py "s1") one_session one_session_touched (Info 0 10 1000%float)
              (JObj [(py "prompt", JStr (py "hello"))]) (JStr (py "hello"))
              JNull 2 1 5 _ _ _ _ _ _ _ _ _ _ _)
              [py "<div><p>old</p></div>"] (py "<div><p>Hi</p></div>") _);
      try (vm_compute; reflexivity); lia.
Defined.

(** X5: the polling loops have no bound of their own. When the enabled
    send button is never found, a turn that got as far as the send loop
    does not return, whatever fuel it is given. *)
Theorem send_loop_never_gives_up
    (env : chat_env) (sid : str) (st st2 : state) (i : info)
    (data prompt files : json) :
  sessions st !! sid = Some i →
  q_json env = Return data →
  dict_get data "prompt" = Return prompt →
  dict_get data "files" = Return files →
  upload_files env (page i) files
    (store sid (Info (browser i) (page i) (q_now env)) st)
  = Some (Return tt, st2) →
  q_input env = None → q_input_keys env prompt = None →
  (∀ n, q_send env n = false) →
  ∀ fuel, send_chat fuel env sid st = None.
Proof.
  intros Hi Hjson Hprompt Hfiles Hup Hin Hkeys Hnever fuel.
  assert (Hloop : ∀ f n s, retry (q_send env) f n s = None).
  { induction f as [|f IH]; intros n s; simpl; [done|].
    by rewrite Hnever. }
  assert (Hconv : converse fuel env sid st = None).
  { rewrite (converse_unfold _ _ _ _ _ _ _ _ Hi Hjson Hprompt Hfiles).
    rewrite (bind_return _ _ _ _ _ Hup), Hin, Hkeys.
    rewrite (bind_return _ _ _ tt st2) by done.
    rewrite (bind_return _ _ _ tt st2) by done.
    unfold bind at 1. by rewrite Hloop. }
  rewrite (send_chat_found _ _ _ _ _ Hi). unfold send_chat_body, bind.
  by rewrite Hconv.
Qed.

Lemma send_loop_never_gives_up_witness :
  send_chat 1000 stuck_turn (py "s1") one_session = None.
Proof.
  refine (send_loop_never_gives_up stuck_turn (py "s1") one_session
            one_session_touched (Info 0 10 1000%float)
            (JObj [(py "prompt", JStr (py "hello"))]) (JStr (py "hello"))
            JNull _ _ _ _ _ _ _ _ 1000);
    vm_compute; reflexivity.
Defined.

End ChatProps.

(** ** The handlers as runs of events

    Whatever a handler call does to the process state, run from start to
    end, is a run of the events above: the states reached by interleaving
    events include those reached by interleaving whole handler calls. *)

Module Coverage.
Import PyStr Py Store Handlers System StoreNotions ChatNotions.
Import HandlerFacts LifecycleProps ChatProps.

Lemma run_send_files p paths : ∀ st,
  running st = true →
  run (EvSendFile p <$> paths) st = Some (sent p paths st).
Proof.
  induction paths as [|path paths IH]; intros st Hr; [done|].
  cbn [fmap list_fmap run]. unfold exec. rewrite Hr. by apply IH.
Qed.

Lemma upload_each_state env p l : ∀ s r s',
  upload_each env p l s = Some (r, s') → ∃ paths, s' = sent p paths s.
Proof.
  induction l as [|path l IH]; intros s r s'.
  - intros [= _ <-]. by exists [].
  - cbn [upload_each]. unfold bind at 1, lift.
    destruct (q_exists env path) as [[|]|e].
    + unfold bind at 1. unfold bind at 1, await_.
      destruct (q_send_file env path) as [e|].
      * intros [= _ <-]. by exists [].
      * cbn. intros (paths & ->)%IH. by exists (path :: paths).
    + unfold bind at 1, ret. apply IH.
    + intros [= _ <-]. by exists [].
Qed.

Lemma bind_inv {A B} (m : M A) (k : A → M B) st r st' :
  bind m k st = Some (r, st') →
  (∃ e, m st = Some (Raise e, st') ∧ r = Raise e)
  ∨ (∃ a st1, m st = Some (Return a, st1) ∧ k a st1 = Some (r, st')).
Proof.
  unfold bind. destruct (m st) as [[[a|e] st1]|]; [eauto | | done].
  intros [= <- <-]. eauto.
Qed.

Lemma await_state o s r s' : await_ o s = Some (r, s') → s' = s.
Proof. destruct o; by intros [= _ <-]. Qed.

Lemma upload_files_state env p files s r s' :
  upload_files env p files s = Some (r, s') → ∃ paths, s' = sent p paths s.
Proof.
  unfold upload_files. destruct (truthy files).
  - unfold try_except.
    destruct (upload_body env p files s) as [[[u|e] s1]|] eqn:Hup; [| |done].
    + intros [= _ <-]. revert Hup. unfold upload_body.
      intros [(e & H & _)|(u' & s2 & H & Hup)]%bind_inv.
      * apply await_state in H as ->. by exists [].
      * apply await_state in H as ->. by eapply upload_each_state.
    + intros [= _ <-]. revert Hup. unfold upload_body.
      intros [(e' & H & _)|(u' & s2 & H & Hup)]%bind_inv.
      * apply await_state in H as ->. by exists [].
      * apply await_state in H as ->. by eapply upload_each_state.
  - intros [= _ <-]. by exists [].
Qed.

Lemma retry_state attempt fuel n s r s' :
  retry attempt fuel n s = Some (r, s') → s' = s.
Proof. intros H. by destruct (retry_returned _ _ _ _ _ _ H). Qed.

Lemma extract_response_state env files s r s' :
  extract_response env files s = Some (r, s') → s' = s.
Proof.
  rewrite extract_response_cases.
  destruct (q_select_all env) as [l|]; [|by intros [= _ <-]].
  destruct (list_getitem l (-1)); by intros [= _ <-].
Qed.

Lemma converse_state fuel env sid st i r st' :
  sessions st !! sid = Some i →
  converse fuel env sid st = Some (r, st') →
  st' = st
  ∨ ∃ paths, st' = sent (page i) paths
                     (store sid (Info (browser i) (page i) (q_now env)) st).
Proof.
  intros Hi. unfold converse.
  intros [(e & [= _ <-] & _)|(data & s1 & [= _ <-] & H)]%bind_inv;
    [by left|].
  apply bind_inv in H as [(e & [= _ <-] & _)|(prompt & s1 & [= _ <-] & H)];
    [by left|].
  apply bind_inv in H as [(e & [= _ <-] & _)|(files & s1 & [= _ <-] & H)];
    [by left|].
  apply bind_inv in H as [(e & Ht & _)|(i' & s1 & Ht & H)];
    rewrite touch_eq, Hi in Ht; [done|]. injection Ht as <- <-. right.
  apply bind_inv in H as [(e & Hup & _)|(u & s2 & Hup & H)];
    apply upload_files_state in Hup as [paths ->]; exists paths; [done|].
  apply bind_inv in H as [(e & ->%await_state & _)|(u1 & s3 & ->%await_state & H)];
    [done|].
  apply bind_inv in H as [(e & ->%await_state & _)|(u2 & s4 & ->%await_state & H)];
    [done|].
  apply bind_inv in H as [(e & ->%retry_state & _)|(u3 & s5 & ->%retry_state & H)];
    [done|].
  apply bind_inv in H as [(e & ->%retry_state & _)|(u4 & s6 & ->%retry_state & H)];
    [done|].
  by injection H as _ <-.
Qed.

Lemma send_chat_state fuel env sid st r st' :
  send_chat fuel env sid st = Some (r, st') →
  st' = st
  ∨ ∃ i paths, sessions st !! sid = Some i
      ∧ st' = sent (page i) paths
                (store sid (Info (browser i) (page i) (q_now env)) st).
Proof.
  destruct (sessions st !! sid) as [i|] eqn:Hi.
  - rewrite (send_chat_found _ _ _ _ _ Hi). unfold send_chat_body.
    intros [(e & H & _)|(files & s1 & H & ->%extract_response_state)]%bind_inv;
      apply (converse_state _ _ _ _ _ _ _ Hi) in H as [->|[paths ->]];
      eauto.
  - rewrite (send_chat_not_found _ _ _ _ Hi). intros [= _ <-]. by left.
Qed.

(** Every handler call leaves a state that a run of events reaches. *)
Lemma handler_calls_are_runs st :
  running st = true →
  (∀ env r st', create_session env st = Some (r, st') →
     ∃ evs, run evs st = Some st')
  ∧ (∀ sid r st', logout sid st = Some (r, st') →
       ∃ evs, run evs st = Some st')
  ∧ (∀ sid now r st', refresh sid now st = Some (r, st') →
       ∃ evs, run evs st = Some st')
  ∧ (∀ fuel env sid r st', send_chat fuel env sid st = Some (r, st') →
       ∃ evs, run evs st = Some st').
Proof.
  intros Hr. split; [|split; [|split]].
  - intros env r st' Hc.
    destruct (create_session_cases env st) as (r' & st'' & Hc' & Hcase).
    rewrite Hc in Hc'. injection Hc' as <- <-. destruct r as [v|e].
    + destruct Hcase as (_ & _ & _ & _ & _ & _ & p & _ & ->).
      exists [EvLaunch; EvRegister (launched st) p (c_token env) (c_now env)].
      cbn [run]. unfold exec at 1. rewrite Hr. unfold exec. cbn.
      rewrite Hr. rewrite decide_True; [done|]. apply elem_of_union. left.
      by apply elem_of_singleton.
    + destruct Hcase as [-> | ->]; [by exists []|].
      exists [EvLaunch]. cbn [run]. unfold exec. by rewrite Hr.
  - intros sid r st' Hl. exists [EvLogout sid]. cbn [run]. unfold exec, after.
    by rewrite Hr, Hl.
  - intros sid now r st' Hl. exists [EvRefresh sid now]. cbn [run].
    unfold exec, after. by rewrite Hr, Hl.
  - intros fuel env sid r st' [->|(i & paths & Hi & ->)]%send_chat_state;
      [by exists []|].
    exists (EvChatTouch sid (q_now env) :: (EvSendFile (page i) <$> paths)).
    cbn [run]. unfold exec at 1, after. rewrite Hr, touch_eq, Hi.
    by apply run_send_files.
Qed.

End Coverage.

(** ** Further properties of the text normalizer *)

Module NormalizerExtras.
Import PyStr Re Normalizer ReNotions NormalizerNotions MoreNotions.
Import ReFacts NormalizerFacts.

(** *** What the result is made of *)

Lemma lstrip_elem x s : In x (lstrip s) → In x s.
Proof.
  induction s as [|c s IH]; simpl; [done|].
  destruct (isspace c); [auto | done].
Qed.

Lemma strip_elem x s : In x (strip s) → In x s.
Proof.
  unfold strip, rstrip. intros H%in_rev%lstrip_elem%in_rev. by apply lstrip_elem.
Qed.

Lemma sub_elem p repl x s : In x (sub p repl s) → In x s ∨ In x repl.
Proof. apply sub_from_elem. Qed.

Lemma block_step_elem x tag s :
  In x (block_step s tag) → In x s ∨ x = LF.
Proof.
  unfold block_step. intros [[H|H]%sub_elem|H]%sub_elem; simpl in *; intuition congruence.
Qed.

Lemma block_steps_elem x tags : ∀ s,
  In x (fold_left block_step tags s) → In x s ∨ x = LF.
Proof.
  induction tags as [|tag tags IH]; intros s; simpl; [tauto|].
  intros [H%block_step_elem|H]%IH; tauto.
Qed.

(** X6: the normalizer invents no character but the newline and the
    space: every character of its output occurs in the input, or is one of
    these two. *)
Theorem output_characters_come_from_input (s : str) (x : N) :
  In x (extract_text_from_html s) → In x s ∨ x = LF ∨ x = SP.
Proof.
  unfold extract_text_from_html, clean_whitespace, strip_tags.
  intros H%strip_elem.
  apply sub_elem in H as [H|[]].
  apply sub_elem in H as [H|H]; [|simpl in H; intuition congruence].
  apply sub_elem in H as [H|H]; [|simpl in H; intuition congruence].
  apply sub_elem in H as [H|H]; [|simpl in H; intuition congruence].
  apply block_steps_elem in H as [H|H]; [|tauto].
  apply sub_elem in H as [H|[]].
  apply sub_elem in H as [H|[]].
  apply sub_elem in H as [H|[]]. tauto.
Qed.

Lemma output_characters_come_from_input_witness :
  In 72%N (py "<b>Hi</b>") ∨ 72%N = LF ∨ 72%N = SP.
Proof.
  apply (output_characters_come_from_input (py "<b>Hi</b>") 72%N).
  vm_compute. tauto.
Defined.

(** *** Text without tags *)

Lemma ignorecase_lt c : ignorecase_eq LT c = true → c = LT.
Proof.
  unfold ignorecase_eq, LT. cbn. rewrite !orb_false_r.
  by intros ->%N.eqb_eq.
Qed.

Lemma match_seq_needs_lt ns prev c s :
  opens_with_lt ns = true → c ≠ LT → match_seq ns prev (c :: s) = None.
Proof.
  destruct ns as [|[[d|d| | |]| | |] ns]; simpl; try done;
    intros ->%N.eqb_eq Hc.
  - destruct (N.eqb_spec c LT); done.
  - destruct (ignorecase_eq LT c) eqn:He; [|done].
    by apply ignorecase_lt in He.
Qed.

Lemma match_alt_needs_lt p prev c s :
  forallb opens_with_lt p = true → c ≠ LT → match_alt p prev (c :: s) = None.
Proof.
  induction p as [|ns p IH]; simpl; [done|].
  intros [Hns Hp]%andb_true_iff Hc.
  rewrite (match_seq_needs_lt _ _ _ _ Hns Hc). by apply IH.
Qed.

Lemma sub_without_lt p repl s :
  forallb opens_with_lt p = true → ¬ In LT s → sub p repl s = s.
Proof.
  intros Hp. unfold sub. generalize (@None N).
  induction s as [|c s IH]; intros prev Hs; [done|].
  cbn [sub_from]. rewrite (match_alt_needs_lt _ _ _ _ Hp).
  - f_equal. apply IH. intros H. apply Hs. by right.
  - intros ->. apply Hs. by left.
Qed.

Lemma block_steps_without_lt tags s :
  ¬ In LT s → fold_left block_step tags s = s.
Proof.
  intros Hs. induction tags as [|tag tags IH]; simpl; [done|].
  unfold block_step. rewrite (sub_without_lt (open_re tag)); [|done|done].
  by rewrite (sub_without_lt (close_re tag)).
Qed.

Lemma strip_tags_without_lt s : ¬ In LT s → strip_tags s = s.
Proof.
  intros Hs. unfold strip_tags.
  rewrite (sub_without_lt script_re), (sub_without_lt style_re),
    (sub_without_lt comment_re), block_steps_without_lt,
    (sub_without_lt tag_re); done.
Qed.

(** X7: on an input without [<] none of the tag substitutions changes
    anything; the normalizer then does its whitespace clean-up only. *)
Theorem text_without_lt_keeps_its_characters (s : str) :
  ¬ In LT s →
  strip_tags s = s ∧ extract_text_from_html s = clean_whitespace s.
Proof.
  intros Hs. unfold extract_text_from_html.
  by rewrite (strip_tags_without_lt s Hs).
Qed.

Lemma text_without_lt_keeps_its_characters_witness :
  strip_tags (py "if a > b:  return") = py "if a > b:  return"
  ∧ extract_text_from_html (py "if a > b:  return")
    = clean_whitespace (py "if a > b:  return").
Proof.
  apply (text_without_lt_keeps_its_characters (py "if a > b:  return")).
  vm_compute. intuition discriminate.
Defined.

(** *** Trimming *)

Lemma lstrip_all_space s :
  (∀ x, In x s → isspace x = true) → lstrip s = [].
Proof.
  induction s as [|c s IH]; intros H; simpl; [done|].
  rewrite (H c) by (by left). apply IH. intros x Hx. apply H. by right.
Qed.

Lemma strip_all_space s :
  (∀ x, In x s → isspace x = true) → strip s = [].
Proof. intros H. unfold strip. by rewrite (lstrip_all_space s H). Qed.

(** X8: an input of whitespace only (in the sense of [str.isspace]) gives
    the empty string. *)
Theorem whitespace_only_input_gives_empty_output (s : str) :
  forallb isspace s = true → extract_text_from_html s = [].
Proof.
  intros Hs.
  assert (Hall : ∀ x, In x s → isspace x = true).
  { by apply forallb_forall. }
  assert (Hlt : ¬ In LT s).
  { intros H%Hall. discriminate H. }
  rewrite (proj2 (text_without_lt_keeps_its_characters s Hlt)).
  unfold clean_whitespace. apply strip_all_space. intros x Hx.
  apply sub_elem in Hx as [Hx|[]].
  apply sub_elem in Hx as [Hx|Hx];
    [|simpl in Hx; destruct Hx as [<-|[<-|[]]]; done].
  apply sub_elem in Hx as [Hx|Hx]; [by apply Hall|].
  simpl in Hx; destruct Hx as [<-|[]]; done.
Qed.

Lemma whitespace_only_input_gives_empty_output_witness :
  extract_text_from_html [SP; 9%N; LF; 13%N; 160%N; 8232%N; SP] = [].
Proof.
  apply (whitespace_only_input_gives_empty_output
           [SP; 9%N; LF; 13%N; 160%N; 8232%N; SP]).
  vm_compute. reflexivity.
Defined.

Lemma lstrip_head s c t : lstrip s = c :: t → isspace c = false.
Proof.
  induction s as [|d s IH]; simpl; [done|].
  destruct (isspace d) eqn:Hd; [done|]. by intros [= <- _].
Qed.

Lemma lstrip_suffix s : ∃ w, s = w ++ lstrip s.
Proof.
  induction s as [|d s [w IH]]; simpl; [by exists []|].
  destruct (isspace d); [|by exists []].
  exists (d :: w). simpl. by rewrite <- IH.
Qed.

Lemma rstrip_prefix s : ∃ w, s = rstrip s ++ w.
Proof.
  unfold rstrip. destruct (lstrip_suffix (rev s)) as [w Hw].
  exists (rev w). rewrite <- rev_app_distr, <- Hw. by rewrite rev_involutive.
Qed.

(** X9: the output of the normalizer neither starts nor ends with a
    whitespace character. *)
Theorem output_is_trimmed (s : str) :
  (∀ c t, extract_text_from_html s = c :: t → isspace c = false)
  ∧ (∀ t c, extract_text_from_html s = t ++ [c] → isspace c = false).
Proof.
  unfold extract_text_from_html, clean_whitespace.
  set (x := sub edges_re [] _). unfold strip. split.
  - intros c t H. destruct (rstrip_prefix (lstrip x)) as [w Hw].
    rewrite H in Hw. by apply (lstrip_head x c (t ++ w)).
  - intros t c H. unfold rstrip in H.
    apply (f_equal (@rev N)) in H.
    rewrite rev_involutive, rev_app_distr in H.
    change (rev [c] ++ rev t) with (c :: rev t) in H.
    exact (lstrip_head _ _ _ H).
Qed.

(** *** Runs of spaces *)

(** A greedy repetition of one character at the end of a sequence takes
    the whole run, when the run is long enough. *)
Lemma rep_run c : ∀ s min prev,
  rep (CLit c) true (match_seq []) min prev s =
  if min <=? run_of c s then Some (run_of c s) else None.
Proof.
  induction s as [|d s IH]; intros min prev.
  - by destruct min.
  - cbn [rep run_of mem]. destruct (d =? c)%N.
    + rewrite IH. destruct min as [|min]; simpl.
      * done.
      * destruct (min <=? run_of c s); done.
    + by destruct min.
Qed.

Lemma sub_spaces_cons c t :
  sub spaces_re [SP] (c :: t) =
  if (c =? SP)%N then SP :: sub spaces_re [SP] (drop (run_of SP t) t)
  else c :: sub spaces_re [SP] t.
Proof.
  unfold sub at 1. cbn [sub_from]. unfold spaces_re at 1.
  cbn [match_alt match_seq]. rewrite rep_run. cbn [run_of].
  destruct (c =? SP)%N.
  - cbn. by rewrite (sub_from_skip spaces_re _ eq_refl).
  - cbn. by rewrite (sub_from_prev spaces_re _ eq_refl _ _ None).
Qed.

Lemma spaced_weaken b s : spaced b s = true → spaced false s = true.
Proof.
  destruct s as [|c s]; simpl; [done|].
  destruct (c =? SP)%N; [|done]. by intros [_ ->]%andb_true_iff.
Qed.

Lemma run_of_drop t : run_of SP (drop (run_of SP t) t) = 0.
Proof.
  induction t as [|d t IH]; simpl; [done|].
  destruct (d =? SP)%N eqn:Hd; simpl; [exact IH | by rewrite Hd].
Qed.

Lemma spaced_sub_spaces s :
  spaced false (sub spaces_re [SP] s) = true
  ∧ (run_of SP s = 0 → spaced true (sub spaces_re [SP] s) = true).
Proof.
  remember (length s) as n eqn:Hn. revert s Hn.
  induction n as [n IH] using lt_wf_ind. intros [|c t] Hn; [done|].
  rewrite sub_spaces_cons. simpl in Hn. cbn [run_of].
  destruct (c =? SP)%N eqn:Hc.
  - split; [|done]. cbn [spaced]. rewrite N.eqb_refl. simpl.
    apply (IH (length (drop (run_of SP t) t))); [|done|apply run_of_drop].
    rewrite length_drop. lia.
  - cbn [spaced]. rewrite Hc.
    destruct (IH (length t)) with (s := t) as [H _]; [lia | done |].
    by split.
Qed.

Lemma spaced_app_plain r x b :
  r ≠ [] → forallb (λ c, negb (c =? SP)%N) r = true →
  spaced b (r ++ x) = spaced false x.
Proof.
  revert b. induction r as [|c r IH]; intros b Hr Hall; [done|].
  simpl in Hall. apply andb_true_iff in Hall as [Hc Hall].
  apply negb_true_iff in Hc. cbn [app spaced]. rewrite Hc.
  destruct r as [|d r]; [done|]. by apply IH.
Qed.

(** Cutting spaces out of a string brings no two spaces together. *)
Lemma spaced_sub_delete p :
  Forall (Forall (node_within (λ c, (c =? SP)%N))) p →
  ∀ s prev skip b,
    spaced b s = true →
    skip ≤ length s →
    forallb (λ c, (c =? SP)%N) (take skip s) = true →
    spaced b (sub_from p [] prev skip s) = true.
Proof.
  intros Hp. induction s as [|c t IH]; intros prev skip b Hs Hle Hall; [done|].
  assert (Hcut : ∀ k, (c =? SP)%N = true → k ≤ length t →
            forallb (λ c, (c =? SP)%N) (take k t) = true →
            spaced b (sub_from p [] (Some c) k t) = true).
  { intros k Hc Hk Hkall. cbn [spaced] in Hs. rewrite Hc in Hs.
    apply andb_true_iff in Hs as [Hb Hs]. apply negb_true_iff in Hb. subst b.
    apply (spaced_weaken true). by apply IH. }
  cbn [sub_from]. destruct skip as [|k].
  - destruct (match_alt p prev (c :: t)) as [[|n]|] eqn:Hm.
    + cbn [spaced] in *. destruct (c =? SP)%N.
      * apply andb_true_iff in Hs as [-> Hs]. simpl.
        apply IH; [done | lia | done].
      * apply IH; [done | lia | done].
    + apply (match_alt_within _ _ _ _ _ Hp) in Hm as [Hn Hpl].
      simpl in Hn, Hpl. apply andb_true_iff in Hpl as [Hc Hpl].
      apply Hcut; [done | lia | done].
    + cbn [spaced] in *. destruct (c =? SP)%N.
      * apply andb_true_iff in Hs as [-> Hs]. simpl.
        apply IH; [done | lia | done].
      * apply IH; [done | lia | done].
  - simpl in Hle, Hall. apply andb_true_iff in Hall as [Hc Hall].
    apply Hcut; [done | lia | done].
Qed.

(** Putting characters other than the space in place of characters other
    than the space brings no two spaces together either. *)
Lemma spaced_sub_replace p repl :
  Forall (Forall (node_within (λ c, negb (c =? SP)%N))) p →
  repl ≠ [] → forallb (λ c, negb (c =? SP)%N) repl = true →
  ∀ s prev skip b,
    spaced b s = true →
    skip ≤ length s →
    forallb (λ c, negb (c =? SP)%N) (take skip s) = true →
    spaced (match skip with 0 => b | S _ => false end)
      (sub_from p repl prev skip s) = true.
Proof.
  intros Hp Hne Hrepl.
  induction s as [|c t IH]; intros prev skip b Hs Hle Hall.
  - by destruct skip.
  - assert (Hgo : ∀ k, (c =? SP)%N = false → k ≤ length t →
              forallb (λ c, negb (c =? SP)%N) (take k t) = true →
              spaced false (sub_from p repl (Some c) k t) = true).
    { intros k Hc Hk Hkall. cbn [spaced] in Hs. rewrite Hc in Hs.
      specialize (IH (Some c) k false Hs Hk Hkall). by destruct k. }
    assert (Hcopy : spaced b (c :: sub_from p repl (Some c) 0 t) = true).
    { cbn [spaced] in *. destruct (c =? SP)%N.
      - apply andb_true_iff in Hs as [-> Hs]. simpl.
        apply (IH _ 0 true); [done | lia | done].
      - apply (IH _ 0 false); [done | lia | done]. }
    cbn [sub_from]. destruct skip as [|k].
    + destruct (match_alt p prev (c :: t)) as [[|n]|] eqn:Hm; try done.
      apply (match_alt_within _ _ _ _ _ Hp) in Hm as [Hn Hpl].
      simpl in Hn, Hpl. apply andb_true_iff in Hpl as [Hc Hpl].
      apply negb_true_iff in Hc.
      rewrite (spaced_app_plain _ _ _ Hne Hrepl).
      apply Hgo; [done | lia | done].
    + simpl in Hle, Hall. apply andb_true_iff in Hall as [Hc Hall].
      apply negb_true_iff in Hc. apply Hgo; [done | lia | done].
Qed.

Lemma spaced_lstrip s : spaced false s = true → spaced false (lstrip s) = true.
Proof.
  induction s as [|c s IH]; [done|]. cbn [lstrip].
  destruct (isspace c); [|done]. intros H. apply IH. cbn [spaced] in H.
  destruct (c =? SP)%N; [|done]. by apply (spaced_weaken true).
Qed.

Lemma spaced_prefix x y : ∀ b, spaced b (x ++ y) = true → spaced b x = true.
Proof.
  induction x as [|c x IH]; intros b; [done|]. cbn [app spaced].
  destruct (c =? SP)%N; [|apply IH].
  intros [-> H]%andb_true_iff. simpl. by apply IH.
Qed.

Lemma spaced_strip s : spaced false s = true → spaced false (strip s) = true.
Proof.
  intros H%spaced_lstrip. unfold strip.
  destruct (rstrip_prefix (lstrip s)) as [w Hw]. rewrite Hw in H.
  by apply spaced_prefix in H.
Qed.

(** X10: the output of the normalizer has no two spaces in a row. *)
Theorem output_has_no_double_space (s : str) :
  no_double_space (extract_text_from_html s) = true.
Proof.
  unfold no_double_space, extract_text_from_html, clean_whitespace.
  generalize (strip_tags s). clear s. intros s.
  assert (H1 : spaced false (sub spaces_re [SP] s) = true)
    by apply spaced_sub_spaces.
  revert H1. generalize (sub spaces_re [SP] s). clear s. intros s H1.
  assert (H2 : spaced false (sub newlines_re [LF; LF] s) = true).
  { unfold sub.
    refine (spaced_sub_replace newlines_re [LF; LF] _ _ eq_refl
              s None 0 false H1 (Nat.le_0_l _) eq_refl); [|done].
    repeat constructor. intros c ->%N.eqb_eq. reflexivity. }
  revert H2. generalize (sub newlines_re [LF; LF] s). clear s H1. intros s H2.
  apply spaced_strip. unfold sub.
  refine (spaced_sub_delete edges_re _ s None 0 false H2 (Nat.le_0_l _)
            eq_refl).
  repeat constructor; intros c Hc; exact Hc.
Qed.

(** *** Comments *)

(** X11: in an input without [<script] and without [<style], of the form
    [a + '<!--' + b + '-->' + c] where this [<!--] is the first of the
    input and this [-->] the first after it, the comment is cut out and the
    output of the normalizer does not depend on its text [b]. *)
Theorem comment_is_cut (a b b' c : str) :
  find (py "<!--") (a ++ py "<!--") = Some (length a) →
  find (py "-->") (b ++ py "-->") = Some (length b) →
  find (py "-->") (b' ++ py "-->") = Some (length b') →
  find (py "<script") (a ++ py "<!--" ++ b ++ py "-->" ++ c) = None →
  find (py "<style") (a ++ py "<!--" ++ b ++ py "-->" ++ c) = None →
  find (py "<script") (a ++ py "<!--" ++ b' ++ py "-->" ++ c) = None →
  find (py "<style") (a ++ py "<!--" ++ b' ++ py "-->" ++ c) = None →
  sub comment_re [] (a ++ py "<!--" ++ b ++ py "-->" ++ c)
  = a ++ sub comment_re [] c
  ∧ extract_text_from_html (a ++ py "<!--" ++ b ++ py "-->" ++ c)
    = extract_text_from_html (a ++ py "<!--" ++ b' ++ py "-->" ++ c).
Proof.
  intros Ha Hb Hb' Hs Hy Hs' Hy'.
  assert (Hcut : ∀ x, find (py "-->") (x ++ py "-->") = Some (length x) →
            sub comment_re [] (a ++ py "<!--" ++ x ++ py "-->" ++ c)
            = a ++ sub comment_re [] c).
  { intros x Hx. by apply (sub_block (py "<!--") (py "-->")). }
  split; [by apply Hcut|].
  unfold extract_text_from_html, strip_tags.
  change script_re with (block_re (py "<script") (py "</script>")).
  change style_re with (block_re (py "<style") (py "</style>")).
  rewrite (sub_block_none (py "<script") (py "</script>") _ Hs).
  rewrite (sub_block_none (py "<script") (py "</script>") _ Hs').
  rewrite (sub_block_none (py "<style") (py "</style>") _ Hy).
  rewrite (sub_block_none (py "<style") (py "</style>") _ Hy').
  by rewrite (Hcut b Hb), (Hcut b' Hb').
Qed.

Lemma comment_is_cut_witness :
  extract_text_from_html (py "a<!-- <p>hidden</p> -->b")
  = extract_text_from_html (py "a<!---->b").
Proof.
  refine (proj2 (comment_is_cut (py "a") (py " <p>hidden</p> ") []
            (py "b") _ _ _ _ _ _ _));
    vm_compute; reflexivity.
Defined.

(** *** Block tags *)

Lemma sub_app_plain p repl a :
  forallb anchor_free p = true → forallb opens_with_lt p = true →
  ¬ In LT a → ∀ s, sub p repl (a ++ s) = a ++ sub p repl s.
Proof.
  intros Hf Hp Ha s. unfold sub. generalize (@None N) at 1.
  induction a as [|c a IH]; intros prev.
  - by apply sub_from_prev.
  - cbn [app sub_from]. rewrite (match_alt_needs_lt _ _ _ _ Hp).
    + f_equal. apply IH. intros H. apply Ha. by right.
    + intros ->. apply Ha. by left.
Qed.

Lemma sub_from_cons_none p repl prev c s :
  match_alt p prev (c :: s) = None →
  sub_from p repl prev 0 (c :: s) = c :: sub_from p repl (Some c) 0 s.
Proof. intros H. cbn [sub_from]. by rewrite H. Qed.

Lemma sub_from_cons_some p repl prev c s n :
  forallb anchor_free p = true →
  match_alt p prev (c :: s) = Some (S n) →
  sub_from p repl prev 0 (c :: s) = repl ++ sub p repl (drop n s).
Proof.
  intros Hf H. cbn [sub_from]. rewrite H. by rewrite sub_from_skip.
Qed.

Lemma sub_passes_tag p repl a d x c :
  forallb anchor_free p = true → forallb opens_with_lt p = true →
  (∀ s, match_alt p None (LT :: d :: s) = None) →
  ¬ In LT a → ¬ In LT (d :: x) →
  sub p repl (a ++ LT :: d :: x ++ GT :: c)
  = a ++ LT :: d :: x ++ GT :: sub p repl c.
Proof.
  intros Hf Hp Hno Ha Hx. rewrite (sub_app_plain p repl a Hf Hp Ha).
  f_equal. unfold sub at 1. rewrite sub_from_cons_none by apply Hno.
  f_equal. rewrite (sub_from_prev p repl Hf _ _ None).
  fold (sub p repl (d :: x ++ GT :: c)).
  replace (d :: x ++ GT :: c) with ((d :: x ++ [GT]) ++ c)
    by (simpl; by rewrite <- app_assoc).
  rewrite (sub_app_plain p repl (d :: x ++ [GT]) Hf Hp).
  - simpl. by rewrite <- app_assoc.
  - intros [H|H]; [apply Hx; by left|].
    apply in_app_or in H as [H|[H|[]]]; [apply Hx; by right | done].
Qed.

Lemma rep_to_gt (k : matcher) x c : ∀ prev,
  (∀ prev', k prev' (GT :: c) = Some 1) → ¬ In GT x →
  rep (CNot GT) true k 0 prev (x ++ GT :: c) = Some (S (length x)).
Proof.
  induction x as [|d x IH]; intros prev Hk Hx.
  - cbn [app rep mem]. change (negb (GT =? GT)%N) with false. apply Hk.
  - cbn [app rep mem Nat.pred length].
    destruct (N.eqb_spec d GT) as [->|_]; [destruct Hx; by left|].
    cbn [negb]. rewrite IH; [done|done|]. intros H. apply Hx. by right.
Qed.

Lemma rep_space_to_gt (k : matcher) ws c : ∀ prev,
  (∀ prev', k prev' (GT :: c) = Some 1) → forallb isspace ws = true →
  rep CSpace true k 0 prev (ws ++ GT :: c) = Some (S (length ws)).
Proof.
  induction ws as [|d ws IH]; intros prev Hk Hws.
  - cbn [app rep mem]. change (isspace GT) with false. apply Hk.
  - cbn [forallb] in Hws. apply andb_true_iff in Hws as [Hd Hws].
    cbn [app rep mem Nat.pred length]. rewrite Hd, IH; done.
Qed.

Lemma match_open_p x c prev :
  ¬ In GT x →
  match_alt (open_re "p") prev (LT :: 112%N :: x ++ GT :: c)
  = Some (S (S (S (length x)))).
Proof.
  intros Hx.
  change (open_re "p") with
    [[One (CLitI LT); Rep CSpace 0 true; One (CLitI 112%N);
      Rep (CNot GT) 0 true; One (CLitI GT)]].
  cbn [match_alt match_seq mem].
  change (ignorecase_eq LT LT) with true. cbn [rep mem Nat.pred].
  change (isspace 112) with false.
  change (ignorecase_eq 112 112) with true. cbv iota.
  by rewrite (rep_to_gt _ x c _ (λ _, eq_refl) Hx).
Qed.

Lemma match_close_p ws c prev :
  forallb isspace ws = true →
  match_alt (close_re "p") prev (LT :: 47%N :: 112%N :: ws ++ GT :: c)
  = Some (S (S (S (S (length ws))))).
Proof.
  intros Hws.
  change (close_re "p") with
    [[One (CLitI LT); Rep CSpace 0 true; One (CLitI 47%N); One (CLitI 112%N);
      Rep CSpace 0 true; One (CLitI GT)]].
  cbn [match_alt match_seq mem].
  change (ignorecase_eq LT LT) with true. cbn [rep mem Nat.pred].
  change (isspace 47) with false.
  change (ignorecase_eq 47 47) with true.
  change (ignorecase_eq 112 112) with true. cbv iota.
  by rewrite (rep_space_to_gt _ ws c _ (λ _, eq_refl) Hws).
Qed.

Lemma strip_tags_via_block_p s t :
  block_step (sub comment_re [] (sub style_re [] (sub script_re [] s))) "p"
  = block_step (sub comment_re [] (sub style_re [] (sub script_re [] t))) "p" →
  strip_tags s = strip_tags t.
Proof.
  intros H. unfold strip_tags, block_tags. cbn [fold_left].
  by rewrite H.
Qed.

Lemma drop_past_gt x c : drop (S (length x)) (x ++ GT :: c) = c.
Proof. induction x as [|d x IH]; [done | exact IH]. Qed.

Lemma isspace_no_lt ws : forallb isspace ws = true → ¬ In LT ws.
Proof.
  intros Hws H. apply (proj1 (forallb_forall _ _) Hws) in H. discriminate H.
Qed.

(** X23: the pattern of an opening block tag is [<\s*p[^>]*>]: nothing
    asks the tag name to end after [p]. In a text that has no [<] before
    it, [<p], whatever follows up to the next [>] (attributes, or the rest
    of a longer tag name as in [<pre>] or [<param ...>]), and that [>]
    count as one newline; so does [</p], white space and [>]. *)
Theorem p_tags_become_newlines (a x ws c : str) :
  ¬ In LT a → ¬ In LT x → ¬ In GT x → forallb isspace ws = true →
  extract_text_from_html (a ++ py "<p" ++ x ++ [GT] ++ c)
  = extract_text_from_html (a ++ [LF] ++ c)
  ∧ extract_text_from_html (a ++ py "</p" ++ ws ++ [GT] ++ c)
    = extract_text_from_html (a ++ [LF] ++ c).
Proof.
  intros Ha Hx Hxg Hws.
  assert (Hnl : ¬ In LT (a ++ [LF])).
  { intros [H|[H|[]]]%in_app_or; [done | discriminate H]. }
  assert (Hplain : ∀ p repl c', forallb anchor_free p = true →
            forallb opens_with_lt p = true →
            sub p repl (a ++ [LF] ++ c') = a ++ [LF] ++ sub p repl c').
  { intros p repl c' Hf Hp.
    rewrite app_assoc, (sub_app_plain p repl _ Hf Hp Hnl).
    by rewrite <- app_assoc. }
  assert (Hpx : ¬ In LT (112%N :: x)).
  { intros [H|H]; [discriminate H | done]. }
  assert (Hpw : ¬ In LT (47%N :: 112%N :: ws)).
  { intros [H|[H|H]]; [discriminate H | discriminate H|].
    by apply (isspace_no_lt ws). }
  unfold extract_text_from_html.
  split; f_equal; apply strip_tags_via_block_p; unfold block_step.
  - f_equal.
    change (a ++ py "<p" ++ x ++ [GT] ++ c)
      with (a ++ LT :: 112%N :: x ++ GT :: c).
    rewrite !Hplain by done.
    rewrite (sub_passes_tag script_re), (sub_passes_tag style_re),
      (sub_passes_tag comment_re) by done.
    rewrite (sub_app_plain (open_re "p") [LF] a) by done. f_equal.
    unfold sub at 1.
    rewrite (sub_from_cons_some (open_re "p") _ _ _ _ _ eq_refl
               (match_open_p x _ None Hxg)).
    cbn [drop]. by rewrite drop_past_gt.
  - change (a ++ py "</p" ++ ws ++ [GT] ++ c)
      with (a ++ LT :: 47%N :: (112%N :: ws) ++ GT :: c).
    rewrite !Hplain by done.
    rewrite (sub_passes_tag script_re), (sub_passes_tag style_re),
      (sub_passes_tag comment_re), (sub_passes_tag (open_re "p")) by done.
    rewrite (sub_app_plain (close_re "p") [LF] a) by done. f_equal.
    unfold sub at 1. cbn [app].
    rewrite (sub_from_cons_some (close_re "p") _ _ _ _ _ eq_refl
               (match_close_p ws _ None Hws)).
    cbn [drop]. by rewrite drop_past_gt.
Qed.

Lemma p_tags_become_newlines_witness :
  extract_text_from_html (py "code:<pre class='x'>a = 1")
  = extract_text_from_html (py "code:" ++ [LF] ++ py "a = 1")
  ∧ extract_text_from_html (py "one</p  >two")
    = extract_text_from_html (py "one" ++ [LF] ++ py "two").
Proof.
  split.
  - refine (proj1 (p_tags_become_newlines (py "code:") (py "re class='x'")
                     [] (py "a = 1") _ _ _ _)); try reflexivity;
      vm_compute; intuition discriminate.
  - refine (proj2 (p_tags_become_newlines (py "one") [] (py "  ")
                     (py "two") _ _ _ _)); try reflexivity;
      vm_compute; intuition discriminate.
Defined.

(** *** Lines *)

Lemma rep_run_eol : ∀ s min prev,
  rep (CLit SP) true (match_seq [Eol]) min prev s =
  if (min <=? run_of SP s) && at_eol (drop (run_of SP s) s)
  then Some (run_of SP s) else None.
Proof.
  induction s as [|d s IH]; intros min prev.
  - by destruct min.
  - cbn [rep run_of mem]. destruct (d =? SP)%N eqn:Hd.
    + rewrite IH. cbn [drop].
      replace (Nat.pred min <=? run_of SP s) with (min <=? S (run_of SP s))
        by (destruct min; done).
      destruct ((min <=? S (run_of SP s)) && at_eol (drop (run_of SP s) s));
        [done|].
      cbn [fmap option_fmap option_map]. destruct min; [|done].
      cbn [match_seq at_eol]. apply N.eqb_eq in Hd. by subst d.
    + destruct min; [|done]. cbn [match_seq drop Nat.leb andb].
      by destruct (at_eol (d :: s)).
Qed.

Lemma match_edges prev s :
  match_alt edges_re prev s =
  if (1 <=? run_of SP s) && (at_bol prev || at_eol (drop (run_of SP s) s))
  then Some (run_of SP s) else None.
Proof.
  unfold edges_re. cbn [match_alt match_seq]. rewrite rep_run, rep_run_eol.
  destruct (at_bol prev), (1 <=? run_of SP s),
    (at_eol (drop (run_of SP s) s)); done.
Qed.

Lemma sub_from_skip_run p repl : ∀ r t prev,
  r ≤ run_of SP t → prev = Some SP →
  sub_from p repl prev r t = sub_from p repl (Some SP) 0 (drop r t).
Proof.
  induction r as [|r IH]; intros t prev Hr ->; [done|].
  destruct t as [|d t]; [simpl in Hr; lia|]. cbn [run_of] in Hr.
  destruct (N.eqb_spec d SP) as [->|]; [|lia].
  cbn [sub_from drop]. apply IH; [lia | done].
Qed.

Lemma sub_edges_cons prev c t :
  sub_from edges_re [] prev 0 (c :: t) =
  if (c =? SP)%N
  then if at_bol prev || at_eol (drop (run_of SP t) t)
       then sub_from edges_re [] (Some SP) 0 (drop (run_of SP t) t)
       else c :: sub_from edges_re [] (Some SP) 0 t
  else c :: sub_from edges_re [] (Some c) 0 t.
Proof.
  cbn [sub_from]. rewrite match_edges. cbn [run_of].
  destruct (N.eqb_spec c SP) as [->|Hc]; [|done].
  cbn [drop]. change (1 <=? S (run_of SP t)) with true. cbn [andb].
  destruct (at_bol prev || at_eol (drop (run_of SP t) t)); [|done].
  cbn [app]. by apply sub_from_skip_run.
Qed.

Lemma trimmed_plain_head b b' prev s :
  run_of SP s = 0 →
  trimmed_lines b (sub_from edges_re [] prev 0 s)
  = trimmed_lines b' (sub_from edges_re [] prev 0 s).
Proof.
  destruct s as [|c t]; [done|]. cbn [run_of].
  destruct (c =? SP)%N eqn:Hc; [done|]. intros _.
  rewrite sub_edges_cons, Hc. cbn [trimmed_lines]. by rewrite Hc.
Qed.

Lemma trimmed_sub_edges : ∀ s prev,
  trimmed_lines (at_bol prev) (sub_from edges_re [] prev 0 s) = true.
Proof.
  intros s. remember (length s) as n eqn:Hn. revert s Hn.
  induction n as [n IH] using lt_wf_ind. intros [|c t] Hn prev; [done|].
  simpl in Hn. rewrite sub_edges_cons.
  destruct (c =? SP)%N eqn:Hc.
  - destruct (at_bol prev || at_eol (drop (run_of SP t) t)) eqn:Hedge.
    + rewrite (trimmed_plain_head _ (at_bol (Some SP))) by apply run_of_drop.
      apply (IH (length (drop (run_of SP t) t))); [|done].
      rewrite length_drop. lia.
    + apply orb_false_iff in Hedge as [Hb He].
      cbn [trimmed_lines]. rewrite Hc, Hb. cbn [negb andb].
      pose proof (IH (length t) ltac:(lia) t eq_refl (Some SP)) as Ht.
      change (at_bol (Some SP)) with false in Ht. rewrite Ht.
      rewrite andb_true_r. destruct t as [|d u]; [done|].
      rewrite sub_edges_cons. cbn [run_of drop] in He.
      destruct (d =? SP)%N eqn:Hd.
      * cbn [at_bol]. change (SP =? LF)%N with false. cbn [orb].
        cbn [drop] in He. rewrite He. apply N.eqb_eq in Hd. by subst d.
      * cbn [drop] in He. cbn [at_eol] in *. by rewrite He.
  - cbn [trimmed_lines]. rewrite Hc.
    apply (IH (length t) ltac:(lia) t eq_refl (Some c)).
Qed.

Lemma trimmed_suffix w s : ∀ b,
  trimmed_lines b (w ++ s) = true → ∃ b', trimmed_lines b' s = true.
Proof.
  induction w as [|c w IH]; intros b; [by exists b|].
  cbn [app trimmed_lines]. destruct (c =? SP)%N; [|apply IH].
  intros [_ H]%andb_true_iff. by apply IH in H.
Qed.

Lemma trimmed_head_plain b b' s :
  (∀ c t, s = c :: t → isspace c = false) →
  trimmed_lines b s = true → trimmed_lines b' s = true.
Proof.
  destruct s as [|c t]; [done|]. intros Hs. cbn [trimmed_lines].
  destruct (N.eqb_spec c SP) as [->|]; [|done].
  by specialize (Hs SP t eq_refl).
Qed.

Lemma trimmed_lstrip b s :
  trimmed_lines b s = true → trimmed_lines true (lstrip s) = true.
Proof.
  intros H. destruct (lstrip_suffix s) as [w Hw]. rewrite Hw in H.
  apply trimmed_suffix in H as [b' H].
  apply (trimmed_head_plain b'); [|done].
  intros c t Hct. by apply (lstrip_head s c t).
Qed.

Lemma trimmed_prefix x w : ∀ b,
  (∀ t c, x = t ++ [c] → c ≠ SP) →
  trimmed_lines b (x ++ w) = true → trimmed_lines b x = true.
Proof.
  induction x as [|c x IH]; intros b Hlast; [done|].
  assert (Hlast' : ∀ t d, x = t ++ [d] → d ≠ SP).
  { intros t d ->. by apply (Hlast (c :: t)). }
  cbn [app trimmed_lines]. destruct (N.eqb_spec c SP) as [->|Hc].
  - destruct x as [|d x]; [by destruct (Hlast [] SP)|].
    cbn [app at_eol].
    intros [Hb H]%andb_true_iff. rewrite Hb. by apply IH.
  - by apply IH.
Qed.

Lemma trimmed_strip b s :
  trimmed_lines b s = true → trimmed_lines true (strip s) = true.
Proof.
  intros H%trimmed_lstrip. unfold strip.
  destruct (rstrip_prefix (lstrip s)) as [w Hw]. rewrite Hw in H.
  apply trimmed_prefix in H; [done|].
  intros t c Ht ->. unfold rstrip in Ht.
  apply (f_equal (@rev N)) in Ht.
  rewrite rev_involutive, rev_app_distr in Ht.
  change (rev [SP] ++ rev t) with (SP :: rev t) in Ht.
  by pose proof (lstrip_head _ _ _ Ht).
Qed.

(** X24: no line of the output starts with a space and none ends with
    one, the first and the last line included. *)
Theorem output_lines_are_trimmed (s : str) :
  trimmed_lines true (extract_text_from_html s) = true.
Proof.
  unfold extract_text_from_html, clean_whitespace.
  apply (trimmed_strip true). unfold sub.
  exact (trimmed_sub_edges _ None).
Qed.

(** *** Blank lines *)

Lemma plain_not_sp c : isspace c = false → (c =? SP)%N = false.
Proof. intros H. destruct (N.eqb_spec c SP) as [->|]; done. Qed.

Lemma plain_not_lf c : isspace c = false → (c =? LF)%N = false.
Proof. intros H. destruct (N.eqb_spec c LF) as [->|]; done. Qed.

Lemma blank_lines_no_lt c2 n : c2 ≠ LT → ¬ In LT (blank_lines n [c2]).
Proof.
  intros L2. induction n as [|n IH]; simpl.
  - intros [H|[]]. by apply L2.
  - intros [H|[H|H]]; [discriminate H | discriminate H | done].
Qed.

Lemma blank_lines_run_lf c2 n :
  isspace c2 = false → run_of LF (blank_lines n [c2]) = 0.
Proof. intros H2. destruct n; simpl; [|done]. by rewrite (plain_not_lf c2 H2). Qed.

Lemma sub_spaces_blank c2 n :
  isspace c2 = false →
  sub spaces_re [SP] (blank_lines n [c2]) = blank_lines n [c2].
Proof.
  intros H2. induction n as [|n IH]; cbn [blank_lines].
  - rewrite sub_spaces_cons, (plain_not_sp c2 H2). done.
  - rewrite sub_spaces_cons. change (SP =? SP)%N with true. cbv iota.
    change (run_of SP (LF :: blank_lines n [c2])) with 0.
    rewrite drop_0, sub_spaces_cons.
    change (LF =? SP)%N with false. cbv iota. by rewrite IH.
Qed.

Lemma sub_newlines_cons repl c t :
  run_of LF (c :: t) < 3 →
  sub newlines_re repl (c :: t) = c :: sub newlines_re repl t.
Proof.
  intros Hr. unfold sub at 1. cbn [sub_from]. unfold newlines_re at 1.
  cbn [match_alt match_seq]. rewrite rep_run.
  destruct (Nat.leb_spec 3 (run_of LF (c :: t))); [lia|].
  by rewrite (sub_from_prev newlines_re _ eq_refl _ _ None).
Qed.

Lemma sub_newlines_blank c2 n :
  isspace c2 = false →
  sub newlines_re [LF; LF] (blank_lines n [c2]) = blank_lines n [c2].
Proof.
  intros H2. induction n as [|n IH]; cbn [blank_lines].
  - rewrite sub_newlines_cons; [done|]. cbn [run_of].
    rewrite (plain_not_lf c2 H2). lia.
  - rewrite sub_newlines_cons by (cbn; lia).
    rewrite sub_newlines_cons; [by rewrite IH|].
    cbn [run_of]. change (LF =? LF)%N with true. cbv iota.
    rewrite (blank_lines_run_lf c2 n H2). lia.
Qed.

Lemma sub_edges_blank c2 n :
  isspace c2 = false →
  sub_from edges_re [] (Some LF) 0 (blank_lines n [c2]) = repeat LF n ++ [c2].
Proof.
  intros H2. induction n as [|n IH]; cbn [blank_lines].
  - rewrite sub_edges_cons, (plain_not_sp c2 H2). done.
  - rewrite sub_edges_cons. change (SP =? SP)%N with true. cbv iota.
    change (at_bol (Some LF)) with true. cbn [orb].
    change (run_of SP (LF :: blank_lines n [c2])) with 0.
    rewrite drop_0, sub_edges_cons.
    change (LF =? SP)%N with false. cbv iota. by rewrite IH.
Qed.

Lemma strip_plain_ends c1 c2 m :
  isspace c1 = false → isspace c2 = false →
  strip (c1 :: m ++ [c2]) = c1 :: m ++ [c2].
Proof.
  intros H1 H2. unfold strip. cbn [lstrip]. rewrite H1. unfold rstrip.
  replace (rev (c1 :: m ++ [c2])) with (c2 :: rev (c1 :: m))
    by (change (c1 :: m ++ [c2]) with ((c1 :: m) ++ [c2]);
        by rewrite rev_app_distr).
  cbn [lstrip]. rewrite H2.
  transitivity (rev (rev (c1 :: m)) ++ [c2]); [reflexivity|].
  by rewrite rev_involutive.
Qed.

(** X25: the second whitespace step cuts a run of three or more newlines
    down to two, but the step after it removes the spaces at the line
    edges and so brings newlines together again: between two visible
    characters, a newline followed by [n] lines that hold one space each
    comes out as [n + 1] newlines in a row. The output has no bound on
    the number of consecutive newlines. *)
Theorem blank_lines_are_not_capped (c1 c2 : N) (n : nat) :
  isspace c1 = false → isspace c2 = false → c1 ≠ LT → c2 ≠ LT →
  extract_text_from_html (c1 :: LF :: blank_lines n [c2])
  = c1 :: repeat LF (S n) ++ [c2].
Proof.
  intros H1 H2 L1 L2. unfold extract_text_from_html.
  rewrite strip_tags_without_lt.
  2:{ intros [H|[H|H]]; [by apply L1 | discriminate H|].
      by apply (blank_lines_no_lt c2 n). }
  unfold clean_whitespace.
  rewrite sub_spaces_cons, (plain_not_sp c1 H1), sub_spaces_cons.
  change (LF =? SP)%N with false. cbv iota. rewrite sub_spaces_blank by done.
  rewrite sub_newlines_cons
    by (cbn [run_of]; rewrite (plain_not_lf c1 H1); lia).
  rewrite sub_newlines_cons.
  2:{ cbn [run_of]. change (LF =? LF)%N with true. cbv iota.
      rewrite (blank_lines_run_lf c2 n H2). lia. }
  rewrite sub_newlines_blank by done. unfold sub.
  rewrite sub_edges_cons, (plain_not_sp c1 H1), sub_edges_cons.
  change (LF =? SP)%N with false. cbv iota. rewrite sub_edges_blank by done.
  exact (strip_plain_ends c1 c2 (repeat LF (S n)) H1 H2).
Qed.

Lemma blank_lines_are_not_capped_witness :
  extract_text_from_html (97 :: LF :: blank_lines 3 [98])%N
  = (97 :: repeat LF 4 ++ [98])%N.
Proof.
  apply (blank_lines_are_not_capped 97 98 3); [reflexivity | reflexivity | |];
    intros H; discriminate H.
Defined.

End NormalizerExtras.

(** ** Further properties of the store, the reaper and shutdown *)

Module StoreExtras.
Import PyStr Py Store Handlers System StoreNotions ChatNotions MoreNotions.
Import Scenarios HandlerFacts StoreFacts Ownership LifecycleProps.

Lemma filter_none {A} (P : A → Prop) `{∀ x, Decision (P x)} (l : list A) :
  (∀ x, x ∈ l → ¬ P x) → filter P l = [].
Proof.
  induction l as [|x l IH]; intros Hl; [done|].
  rewrite filter_cons_False by (apply Hl; left).
  apply IH. intros y Hy. apply Hl. by right.
Qed.

Lemma state_eq st st' :
  sessions st = sessions st' → stopped st = stopped st' →
  uploaded st = uploaded st' → launched st = launched st' →
  pending st = pending st' → running st = running st' → st = st'.
Proof. destruct st, st'; simpl. by intros -> -> -> -> -> ->. Qed.

(** A cycle that finds nothing expired changes nothing. *)
Lemma cleanup_cycle_nothing_expired now st :
  (∀ sid i, sessions st !! sid = Some i → expired now i = false) →
  cleanup_cycle now st = st.
Proof.
  intros Hno. destruct (cleanup_cycle_rest now st) as (Hu & Hl & Hp & Hr).
  apply state_eq; try done.
  - apply map_eq. intros sid. rewrite cleanup_cycle_sessions.
    destruct (sessions st !! sid) as [i|] eqn:Hi; [|done]. simpl.
    by rewrite (Hno sid i Hi).
  - rewrite cleanup_cycle_stopped, filter_none; [done|].
    intros [sid i] Hin%elem_of_map_to_list He. unfold expired_entry in He.
    simpl in He. by rewrite (Hno sid i Hin) in He.
Qed.

(** X12: a second reaper cycle at the same clock reading finds nothing
    left to do: it removes no session and stops no browser. *)
Theorem reaper_cycle_is_idempotent (now : float) (st : state) :
  cleanup_cycle now (cleanup_cycle now st) = cleanup_cycle now st.
Proof.
  apply cleanup_cycle_nothing_expired. intros sid i.
  rewrite cleanup_cycle_sessions.
  destruct (sessions st !! sid) as [j|]; [|done]. simpl.
  destruct (expired now j) eqn:He; [done|]. by intros [= <-].
Qed.

(** X13: the shutdown part of [lifespan] stops the browser of every session
    still registered, none of them twice and none that was stopped before;
    it leaves [sessions] as it is, and nothing runs after it. *)
Theorem shutdown_stops_every_live_browser (evs : list event) (st : state) :
  run evs init = Some st → running st = true →
  sessions (shutdown st) = sessions st
  ∧ (∀ sid i, sessions st !! sid = Some i → browser i ∈ stopped (shutdown st))
  ∧ NoDup (stopped (shutdown st))
  ∧ (∀ b, b ∈ stopped st → b ∈ stopped (shutdown st))
  ∧ ∀ ev, exec ev (shutdown st) = None.
Proof.
  intros Hrun Hr.
  assert (Hinv : inv st) by (eapply inv_run; [apply inv_init | exact Hrun]).
  pose proof (inv_nodup _ (inv_shutdown st Hinv Hr)) as Hnd.
  rewrite shutdown_eq in *. simpl. split; [done|]. split; [|split; [done|split]].
  - intros sid i Hi. apply elem_of_app. left. apply elem_of_reverse.
    apply list_elem_of_fmap. exists (sid, i). split; [done|].
    by apply elem_of_map_to_list.
  - intros b Hb. apply elem_of_app. by right.
  - done.
Qed.

Lemma shutdown_stops_every_live_browser_witness :
  sessions (shutdown two_sessions) = sessions two_sessions
  ∧ NoDup (stopped (shutdown two_sessions))
  ∧ exec (EvLogout (py "old")) (shutdown two_sessions) = None.
Proof.
  destruct (shutdown_stops_every_live_browser two_sessions_trace two_sessions)
    as (H1 & _ & H3 & _ & H5); [vm_compute; reflexivity | reflexivity |].
  split; [exact H1|]. split; [exact H3 | apply H5].
Defined.

(** *** Browsers that nothing holds *)

(** A browser that no entry of [sessions] holds is stopped by nothing, as
    long as no registration puts it into [sessions]. *)
Lemma exec_unowned b ev st st' :
  b ∉ stopped st → unowned b st → ¬ registers_browser b ev →
  exec ev st = Some st' →
  (b ∉ stopped st') ∧ unowned b st'.
Proof.
  unfold unowned. intros Hns Hun Hev Hex. unfold exec in Hex.
  destruct (running st); [|done].
  destruct ev as [|b' p sid now|sid|sid now|sid now|p path|now|];
    simpl in Hev.
  - by injection Hex as <-.
  - destruct (decide (b' ∈ pending st)); [|done]. injection Hex as <-.
    split; [done|]. intros sid' i. simpl.
    destruct (decide (sid = sid')) as [->|Hne].
    + rewrite lookup_insert_eq. intros [= <-]. simpl. done.
    + rewrite lookup_insert_ne by done. apply Hun.
  - injection Hex as <-. unfold after. rewrite logout_eq.
    destruct (sessions st !! sid) as [i|] eqn:Hi; [|done]. simpl. split.
    + intros [Hb|Hb]%elem_of_cons; [|done]. by apply (Hun sid i Hi).
    + intros sid' i' [_ Hi']%lookup_delete_Some. by apply (Hun sid' i').
  - injection Hex as <-. unfold after. rewrite refresh_eq.
    destruct (sessions st !! sid) as [i|] eqn:Hi; [|done]. simpl.
    split; [done|]. intros sid' i'.
    destruct (decide (sid = sid')) as [->|Hne].
    + rewrite lookup_insert_eq. intros [= <-]. simpl. by apply (Hun sid' i).
    + rewrite lookup_insert_ne by done. apply Hun.
  - injection Hex as <-. unfold after. rewrite touch_eq.
    destruct (sessions st !! sid) as [i|] eqn:Hi; [|done]. simpl.
    split; [done|]. intros sid' i'.
    destruct (decide (sid = sid')) as [->|Hne].
    + rewrite lookup_insert_eq. intros [= <-]. simpl. by apply (Hun sid' i).
    + rewrite lookup_insert_ne by done. apply Hun.
  - by injection Hex as <-.
  - injection Hex as <-. split.
    + rewrite cleanup_cycle_stopped.
      intros [Hb|Hb]%elem_of_app; [|done].
      apply elem_of_reverse, list_elem_of_fmap in Hb
        as ([sid i] & -> & [_ Hin%elem_of_map_to_list]%list_elem_of_filter).
      by apply (Hun sid i Hin).
    + intros sid i. rewrite cleanup_cycle_sessions.
      destruct (sessions st !! sid) as [j|] eqn:Hj; [|done]. simpl.
      destruct (expired now j); [done|]. intros [= <-]. by apply (Hun sid j).
  - injection Hex as <-. rewrite shutdown_eq. simpl. split; [|done].
    intros [Hb|Hb]%elem_of_app; [|done].
    apply elem_of_reverse, list_elem_of_fmap in Hb
      as ([sid i] & -> & Hin%elem_of_map_to_list).
    by apply (Hun sid i Hin).
Qed.

Lemma run_unowned b evs : ∀ st st',
  b ∉ stopped st → unowned b st →
  Forall (λ ev, ¬ registers_browser b ev) evs →
  run evs st = Some st' →
  (b ∉ stopped st') ∧ unowned b st'.
Proof.
  induction evs as [|ev evs IH]; intros st st' Hns Hun Hevs; simpl.
  - by intros [= <-].
  - apply Forall_cons in Hevs as [Hev Hevs].
    destruct (exec ev st) as [st1|] eqn:Hex; [|done].
    destruct (exec_unowned _ _ _ _ Hns Hun Hev Hex). by apply IH.
Qed.

(** A browser that is not pending cannot be registered; the new browsers
    of later launches are other ones. *)
Lemma run_not_pending b evs : ∀ st st',
  b < launched st → b ∉ pending st → run evs st = Some st' →
  Forall (λ ev, ¬ registers_browser b ev) evs.
Proof.
  induction evs as [|ev evs IH]; intros st st' Hlt Hnp; simpl; [done|].
  destruct (exec ev st) as [st1|] eqn:Hex; [|done]. intros Hrun.
  assert (Hst1 : b < launched st1 ∧ (b ∉ pending st1)
                 ∧ ¬ registers_browser b ev).
  { unfold exec in Hex. destruct (running st); [|done].
    destruct ev as [|b' p sid now|sid|sid now|sid now|p path|now|];
      simpl.
    - injection Hex as <-. simpl. split; [lia|]. split; [|tauto].
      intros [Hb%elem_of_singleton|Hb]%elem_of_union; [lia | done].
    - destruct (decide (b' ∈ pending st)) as [Hin|]; [|done].
      injection Hex as <-. simpl. split; [done|]. split.
      + by intros [Hb _]%elem_of_difference.
      + by intros ->.
    - injection Hex as <-. unfold after. rewrite logout_eq.
      destruct (sessions st !! sid); simpl; tauto.
    - injection Hex as <-. unfold after. rewrite refresh_eq.
      destruct (sessions st !! sid); simpl; tauto.
    - injection Hex as <-. unfold after. rewrite touch_eq.
      destruct (sessions st !! sid); simpl; tauto.
    - injection Hex as <-. simpl. tauto.
    - injection Hex as <-.
      destruct (cleanup_cycle_rest now st) as (_ & -> & -> & _). tauto.
    - injection Hex as <-. rewrite shutdown_eq. simpl. tauto. }
  destruct Hst1 as (Hlt1 & Hnp1 & Hev). apply Forall_cons. split; [done|].
  by apply (IH st1 st').
Qed.

(** Once the body has decoded to an object and [uc.start()] has returned,
    the browser exists whatever comes next. *)
Lemma create_session_after_launch env st m :
  c_json env = Return (JObj m) → c_start env = None →
  ∃ r st', create_session env st = Some (r, st') ∧
  match r with
  | Return _ => ∃ p, st' = register (launched st) p (c_token env) (c_now env)
                         (snd (launch st))
  | Raise _ => st' = snd (launch st)
  end.
Proof.
  unfold create_session, bind, lift, update, ret, raise, await_, uc_start.
  destruct env as [cj cs cg cb ce cek cp cpk cbt cc tok now]; simpl.
  intros -> ->. simpl.
  destruct cg as [p|]; simpl; [|by eexists _, _].
  destruct cb; simpl; [by eexists _, _|].
  destruct ce; simpl; [by eexists _, _|].
  destruct (cek _); simpl; [by eexists _, _|].
  destruct cp; simpl; [by eexists _, _|].
  destruct (cpk _); simpl; [by eexists _, _|].
  destruct cbt; simpl; [by eexists _, _|].
  destruct cc; simpl; [by eexists _, _|].
  eexists _, _. split; [reflexivity|]. by exists p.
Qed.

(** X14: a login that fails after [uc.start()] has returned leaves its
    browser running for good. The handler raises without stopping it; the
    browser is in no entry of [sessions], so neither [logout], nor the
    reaper, nor the loop at shutdown ever calls [stop()] on it. (The task
    that held it has ended, so no later event registers it.) *)
Theorem failed_login_leaks_its_browser
    (evs0 : list event) (st : state) (env : create_env)
    (m : list (str * json)) (e : exc) (st' : state) :
  run evs0 init = Some st →
  c_json env = Return (JObj m) → c_start env = None →
  create_session env st = Some (Raise e, st') →
  st' = snd (launch st)
  ∧ ∀ evs st'',
      Forall (λ ev, ¬ registers_browser (launched st) ev) evs →
      run evs st' = Some st'' →
      (launched st ∉ stopped st'') ∧ unowned (launched st) st''.
Proof.
  intros Hrun Hj Hs Hc.
  destruct (create_session_after_launch env st m Hj Hs) as (r & s & Hc' & Hr).
  rewrite Hc in Hc'. injection Hc' as <- <-. subst st'. split; [done|].
  assert (Hinv : inv st) by (eapply inv_run; [apply inv_init | exact Hrun]).
  intros evs st'' Hevs Hrun'. eapply run_unowned; [| |exact Hevs|exact Hrun'].
  - simpl. intros Hin%(inv_stopped _ Hinv). lia.
  - intros sid i Hi Hb. simpl in Hi.
    destruct (inv_live _ Hinv sid i Hi) as (Hlt & _). lia.
Qed.

Lemma failed_login_leaks_its_browser_witness :
  (1 ∉ stopped (shutdown (cleanup_cycle 5000%float (snd (launch logged_in)))))
  ∧ unowned 1 (shutdown (cleanup_cycle 5000%float (snd (launch logged_in)))).
Proof.
  refine (proj2 (failed_login_leaks_its_browser
            [EvLaunch; EvRegister 0 7 (py "tok-1") 1000%float] logged_in
            no_button
            [(py "username", JStr (py "u@example.org"));
             (py "password", JStr (py "secret"))]
            (Unhandled (PyErr "TimeoutError"
               (py "time ran out while waiting for text: Log in")))
            (snd (launch logged_in)) _ _ _ _)
            [EvReap 5000%float; EvShutdown] _ _ _);
    try (vm_compute; reflexivity).
  repeat constructor; simpl; tauto.
Defined.

(** X15: [sessions[sid] = {...}] does not look whether [sid] is a key
    already. Should [secrets.token_urlsafe] return the id of a live
    session, the entry is replaced, and the browser of the replaced
    session is stopped by nothing that follows: not by a logout, not by
    the reaper, not at shutdown. *)
Theorem overwritten_session_leaks_its_browser
    (evs0 evs : list event) (st st'' : state)
    (b p : handle) (sid : str) (now : float) (i : info) :
  run evs0 init = Some st →
  sessions st !! sid = Some i →
  run (EvRegister b p sid now :: evs) st = Some st'' →
  (browser i ∉ stopped st'') ∧ unowned (browser i) st''.
Proof.
  intros Hrun Hi. cbn [run].
  destruct (exec (EvRegister b p sid now) st) as [st1|] eqn:Hex; [|done].
  intros Hrun'.
  assert (Hinv : inv st) by (eapply inv_run; [apply inv_init | exact Hrun]).
  pose proof (exec_running _ _ _ Hex) as Hr.
  unfold exec in Hex. rewrite Hr in Hex.
  destruct (decide (b ∈ pending st)) as [Hb|]; [|done].
  injection Hex as <-.
  destruct (inv_live _ Hinv sid i Hi) as (Hlt & Hnp & Hns).
  eapply run_unowned; [| | |exact Hrun'].
  - simpl. by apply Hns.
  - intros sid' i'. simpl.
    destruct (decide (sid = sid')) as [<-|Hne].
    + rewrite lookup_insert_eq. intros [= <-]. simpl. by intros ->.
    + rewrite lookup_insert_ne by done. intros Hi' Heq.
      apply Hne. symmetry. by apply (inv_inj _ Hinv sid' sid i' i).
  - eapply run_not_pending; [| |exact Hrun']; simpl; [done|].
    by intros [? _]%elem_of_difference.
Qed.

Lemma overwritten_session_leaks_its_browser_witness :
  (0 ∉ stopped (shutdown (after (logout (py "s1"))
                   (register 1 11 (py "s1") 1200%float
                      (snd (launch one_session))))))
  ∧ unowned 0 (shutdown (after (logout (py "s1"))
                 (register 1 11 (py "s1") 1200%float
                    (snd (launch one_session))))).
Proof.
  refine (overwritten_session_leaks_its_browser
            [EvLaunch; EvRegister 0 10 (py "s1") 1000%float; EvLaunch]
            [EvLogout (py "s1"); EvShutdown]
            (snd (launch one_session)) _ 1 11 (py "s1") 1200%float
            (Info 0 10 1000%float) _ _ _);
    vm_compute; reflexivity.
Defined.

(** X16: a login followed by the logout of the id it returned. The logout
    finds the session, stops the browser that the login started (and no
    other), and leaves [sessions] without the id; when the id was not a
    key before the login, [sessions] is back to what it was. *)
Theorem login_then_logout_round_trip
    (env : create_env) (st st1 : state) (v : json) :
  create_session env st = Some (Return v, st1) →
  ∃ st2,
    logout (c_token env) st1
    = Some (Return (JObj [(py "status", JStr (py "logged_out"))]), st2)
    ∧ sessions st2 = delete (c_token env) (sessions st)
    ∧ (sessions st !! c_token env = None → sessions st2 = sessions st)
    ∧ stopped st2 = launched st :: stopped st.
Proof.
  intros Hc. destruct (create_session_cases env st) as (r & s & Hc' & Hr).
  rewrite Hc in Hc'. injection Hc' as <- <-.
  destruct Hr as (_ & _ & _ & _ & _ & _ & p & _ & ->).
  rewrite logout_eq. simpl. rewrite lookup_insert_eq. eexists.
  split; [reflexivity|]. simpl. rewrite delete_insert_eq.
  split; [done|]. split; [|done]. intros Hnone. by apply delete_id.
Qed.

Lemma login_then_logout_round_trip_witness :
  ∃ st2,
    logout (py "tok-1") logged_in
    = Some (Return (JObj [(py "status", JStr (py "logged_out"))]), st2)
    ∧ sessions st2 = sessions init
    ∧ stopped st2 = [0].
Proof.
  destruct (login_then_logout_round_trip (good_login (py "tok-1") 1000%float)
              init logged_in (JObj [(py "session_id", JStr (py "tok-1"))]))
    as (st2 & Hl & _ & Hs & Hst); [vm_compute; reflexivity|].
  exists st2. split; [exact Hl|]. split; [apply Hs; reflexivity | exact Hst].
Defined.

End StoreExtras.

(** ** The chat turn and the request body: further properties *)

Module HandlerExtras.
Import PyStr Py Store Handlers System StoreNotions ChatNotions MoreNotions.
Import Scenarios HandlerFacts LifecycleProps ChatProps Coverage.

Lemma sent_frame p paths : ∀ st,
  sessions (sent p paths st) = sessions st
  ∧ stopped (sent p paths st) = stopped st
  ∧ launched (sent p paths st) = launched st
  ∧ pending (sent p paths st) = pending st
  ∧ running (sent p paths st) = running st.
Proof.
  induction paths as [|path paths IH]; intros st; [done|].
  unfold sent. cbn [foldl]. apply (IH (send_file p path st)).
Qed.

(** X17: whatever a chat turn comes to (a response, an HTTP error, an
    exception nothing handles), it stops no browser, starts none, adds no
    session and removes none, and leaves every entry but its own as it
    was; of its own entry it keeps the browser and the page. *)
Theorem chat_turn_changes_its_own_entry_only
    (fuel : nat) (env : chat_env) (sid : str) (st st' : state)
    (r : result json) :
  send_chat fuel env sid st = Some (r, st') →
  stopped st' = stopped st ∧ launched st' = launched st
  ∧ pending st' = pending st ∧ running st' = running st
  ∧ dom (sessions st') = dom (sessions st)
  ∧ (∀ sid', sid' ≠ sid → sessions st' !! sid' = sessions st !! sid')
  ∧ (∀ i', sessions st' !! sid = Some i' →
       ∃ i, sessions st !! sid = Some i
            ∧ browser i' = browser i ∧ page i' = page i).
Proof.
  intros [->|(i & paths & Hi & ->)]%send_chat_state.
  - repeat split; try done. intros i' Hi'. by exists i'.
  - destruct (sent_frame (page i) paths
                (store sid (Info (browser i) (page i) (q_now env)) st))
      as (-> & -> & -> & -> & ->).
    simpl. repeat split; try done.
    + apply dom_insert_lookup_L. by eexists.
    + intros sid' Hne. by rewrite lookup_insert_ne.
    + intros i'. rewrite lookup_insert_eq. intros [= <-]. by exists i.
Qed.

Lemma chat_turn_changes_its_own_entry_only_witness :
  stopped one_session_touched = stopped one_session
  ∧ dom (sessions one_session_touched) = dom (sessions one_session).
Proof.
  destruct (chat_turn_changes_its_own_entry_only 5 (plain_turn []) (py "s1")
              one_session one_session_touched (Raise index_error))
    as (H1 & _ & _ & _ & H5 & _); [vm_compute; reflexivity|].
  split; [exact H1 | exact H5].
Defined.

(** The turn from the touch on: whatever it comes to, the entry has been
    touched. *)
Lemma converse_touched fuel env sid st i m r st' :
  sessions st !! sid = Some i →
  q_json env = Return (JObj m) →
  converse fuel env sid st = Some (r, st') →
  ∃ paths, st' = sent (page i) paths
                   (store sid (Info (browser i) (page i) (q_now env)) st).
Proof.
  intros Hi Hjson.
  rewrite (converse_unfold fuel env sid st i (JObj m) _ _ Hi Hjson
             eq_refl eq_refl).
  intros H.
  apply bind_inv in H as [(e & Hup & _)|(u & s2 & Hup & H)];
    apply upload_files_state in Hup as [paths ->]; exists paths; [done|].
  apply bind_inv in H as [(e & ->%await_state & _)|(u1 & s3 & ->%await_state & H)];
    [done|].
  apply bind_inv in H as [(e & ->%await_state & _)|(u2 & s4 & ->%await_state & H)];
    [done|].
  apply bind_inv in H as [(e & ->%retry_state & _)|(u3 & s5 & ->%retry_state & H)];
    [done|].
  apply bind_inv in H as [(e & ->%retry_state & _)|(u4 & s6 & ->%retry_state & H)];
    [done|].
  by injection H as _ <-.
Qed.

(** X18: the access time is written before anything is done with the
    page. Once the session is found and the body has decoded to an object,
    the turn counts as a use of the session whatever it comes to: also
    when it ends in the HTTP 500 of the upload block or in an exception,
    [last] is the clock reading of the turn. *)
Theorem failed_turn_still_counts_as_use
    (fuel : nat) (env : chat_env) (sid : str) (st st' : state) (i : info)
    (m : list (str * json)) (r : result json) :
  sessions st !! sid = Some i →
  q_json env = Return (JObj m) →
  send_chat fuel env sid st = Some (r, st') →
  sessions st' !! sid = Some (Info (browser i) (page i) (q_now env)).
Proof.
  intros Hi Hjson. rewrite (send_chat_found _ _ _ _ _ Hi).
  unfold send_chat_body.
  intros [(e & H & _)|(files & s1 & H & ->%extract_response_state)]%bind_inv;
    apply (converse_touched _ _ _ _ _ _ _ _ Hi Hjson) in H as [paths ->];
    destruct (sent_frame (page i) paths
                (store sid (Info (browser i) (page i) (q_now env)) st))
      as (-> & _); simpl; apply lookup_insert_eq.
Qed.

Lemma failed_turn_still_counts_as_use_witness :
  sessions one_session_touched !! py "s1" = Some (Info 0 10 1100%float).
Proof.
  refine (failed_turn_still_counts_as_use 0 no_file_input (py "s1")
            one_session one_session_touched (Info 0 10 1000%float)
            [(py "prompt", JStr (py "hello"));
             (py "files", JStr (py "/tmp/report.pdf"))]
            (Raise (HTTPException 500
               (py "File upload failed: time ran out while waiting for input[type='file']")))
            _ _ _);
    vm_compute; reflexivity.
Defined.

(** X19: [if files:] goes by the truth value. When [files] is missing,
    [null], [false], [0], the empty string or the empty list, the upload
    block is not entered: the file input is not looked for (the turn goes
    through on a page that has none), nothing is sent, and the response
    carries [null] under [files_uploaded]. *)
Theorem turn_without_files_skips_the_upload
    (env : chat_env) (sid : str) (st : state) (i : info)
    (data prompt files : json) (k1 k2 fuel : nat) (l : list str) (x : str) :
  sessions st !! sid = Some i →
  q_json env = Return data →
  dict_get data "prompt" = Return prompt →
  dict_get data "files" = Return files →
  truthy files = false →
  q_input env = None → q_input_keys env prompt = None →
  q_send env k1 = true → q_done env k2 = true →
  k1 < fuel → k2 < fuel →
  q_select_all env = Return (l ++ [x]) →
  send_chat fuel env sid st
  = Some (Return (chat_response x files),
          store sid (Info (browser i) (page i) (q_now env)) st)
  ∧ dict_get (chat_response x files) "files_uploaded" = Return JNull.
Proof.
  intros Hi Hjson Hprompt Hfiles Hfalse Hin Hkeys Hsend Hdone Hk1 Hk2 Hall.
  split; [|by rewrite files_uploaded_echo, Hfalse].
  eapply extraction_after_converse; [by eexists | | exact Hall].
  eapply converse_returns; eauto.
  unfold upload_files. by rewrite Hfalse.
Qed.

Lemma turn_without_files_skips_the_upload_witness :
  send_chat 5 empty_files_turn (py "s1") one_session
  = Some (Return (chat_response (py "<div><p>Hi</p></div>") (JList [])),
          one_session_touched)
  ∧ dict_get (chat_response (py "<div><p>Hi</p></div>") (JList []))
      "files_uploaded" = Return JNull.
Proof.
  refine (turn_without_files_skips_the_upload empty_files_turn (py "s1")
            one_session (Info 0 10 1000%float)
            (JObj [(py "prompt", JStr (py "hello")); (py "files", JList [])])
            (JStr (py "hello")) (JList []) 2 1 5 []
            (py "<div><p>Hi</p></div>") _ _ _ _ _ _ _ _ _ _ _ _);
    try (vm_compute; reflexivity); lia.
Defined.




(** X21: the membership test of [send_chat] and its first use of
    [sessions[sid]] are separated by [await request.json()]. When the
    session is gone by the time the body has been read (a logout or the
    reaper ran in between), the rest of the handler raises a [KeyError]
    that nothing handles, not the 404 of the test, and changes nothing;
    the same call made from the start in that state answers the 404. *)
Theorem session_gone_during_the_turn_is_a_key_error
    (fuel : nat) (env : chat_env) (sid : str) (st : state)
    (m : list (str * json)) :
  sessions st !! sid = None →
  q_json env = Return (JObj m) →
  send_chat_body fuel env sid st = Some (Raise (key_error sid), st)
  ∧ send_chat fuel env sid st = Some (Raise not_found_error, st).
Proof.
  intros Hnone Hjson. split; [|by apply send_chat_not_found].
  unfold send_chat_body. erewrite bind_raise; [done|]. unfold converse.
  rewrite (bind_return _ _ _ (JObj m) st) by (by rewrite Hjson).
  rewrite (bind_return _ _ _ _ st) by reflexivity.
  rewrite (bind_return _ _ _ _ st) by reflexivity.
  apply bind_raise. by rewrite touch_eq, Hnone.
Qed.

Lemma session_gone_during_the_turn_is_a_key_error_witness :
  send_chat_body 5 (plain_turn []) (py "tok-1") logged_out
  = Some (Raise (key_error (py "tok-1")), logged_out)
  ∧ send_chat 5 (plain_turn []) (py "tok-1") logged_out
    = Some (Raise not_found_error, logged_out).
Proof.
  refine (session_gone_during_the_turn_is_a_key_error 5 (plain_turn [])
            (py "tok-1") logged_out [(py "prompt", JStr (py "hello"))] _ _);
    vm_compute; reflexivity.
Defined.

(** X22: both handlers that read a body call [data.get] on whatever the
    body decodes to. A body that is valid JSON but not an object (an
    array, a string, a number, [true], [null]) makes [create_session]
    raise an [AttributeError] before any browser is started, and makes
    [send_chat] on a live session raise one before the access time is
    written; in both cases the state is as it was, and the error is not an
    [HTTPException]. *)
Theorem body_that_is_no_object_is_an_attribute_error (data : json) :
  is_dict data = false →
  (∀ env st, c_json env = Return data →
     ∃ msg, create_session env st
            = Some (Raise (Unhandled (PyErr "AttributeError" msg)), st))
  ∧ (∀ fuel env sid st, is_Some (sessions st !! sid) →
       q_json env = Return data →
       ∃ msg, send_chat fuel env sid st
              = Some (Raise (Unhandled (PyErr "AttributeError" msg)), st)).
Proof.
  intros Hd.
  assert (Hget : ∀ key, ∃ msg,
            dict_get data key = Raise (Unhandled (PyErr "AttributeError" msg))).
  { intros key. destruct data; try discriminate Hd; by eexists. }
  split.
  - intros env st Hjson. destruct (Hget "username") as [msg Hmsg].
    exists msg. unfold create_session.
    rewrite (bind_return _ _ _ data st) by (by rewrite Hjson).
    apply bind_raise. by rewrite Hmsg.
  - intros fuel env sid st [i Hi] Hjson. destruct (Hget "prompt") as [msg Hmsg].
    exists msg. rewrite (send_chat_found _ _ _ _ _ Hi). unfold send_chat_body.
    erewrite bind_raise; [done|]. unfold converse.
    rewrite (bind_return _ _ _ data st) by (by rewrite Hjson).
    apply bind_raise. by rewrite Hmsg.
Qed.

Lemma body_that_is_no_object_is_an_attribute_error_witness :
  (∃ msg, create_session array_login logged_in
          = Some (Raise (Unhandled (PyErr "AttributeError" msg)), logged_in))
  ∧ (∃ msg, send_chat 5 array_turn (py "tok-1") logged_in
            = Some (Raise (Unhandled (PyErr "AttributeError" msg)), logged_in)).
Proof.
  destruct (body_that_is_no_object_is_an_attribute_error
              (JList [JStr (py "u@example.org"); JStr (py "secret")])
              eq_refl) as [Hc _].
  destruct (body_that_is_no_object_is_an_attribute_error
              (JList [JStr (py "hello")]) eq_refl) as [_ Hs].
  split.
  - apply Hc. reflexivity.
  - apply Hs; [vm_compute; by eexists | reflexivity].
Defined.

End HandlerExtras.
